(** * playlist.py: filters, groups, random sampling and M3U output

    A shallow embedding of [src/playlist.py] and the properties of its
    specification.  Python byte strings are [string]; the interpreter's
    object store is a [gmap] from object identities to [Show] records, so
    that the registry and the Filters share the Shows they refer to; the
    two dictionaries of a [ShowList] are association lists in iteration
    order; exceptions are an explicit outcome that keeps the store as the
    interrupted call left it. *)

From Stdlib Require Import Ascii String ZArith Lia.
From Stdlib Require Import DecimalString.
From stdpp Require Import base list strings gmap sorting.
From Stdlib Require Import Permutation.

(** ** Byte strings *)

(** The newline byte (Python's ["\n"]). *)
Definition LF : ascii := "010"%char.

(** [s.split(sep)] for a one-byte separator: every occurrence of [sep]
    ends a field, so the result is never empty and [n] separators give
    [n + 1] fields. *)
Fixpoint split (sep : ascii) (s : string) : list string :=
  match s with
  | EmptyString => [EmptyString]
  | String c t =>
      if Ascii.eqb c sep then EmptyString :: split sep t
      else match split sep t with
           | h :: r => String c h :: r
           | [] => [String c EmptyString]
           end
  end.

(** [sep.join(parts)]. *)
Fixpoint join (sep : string) (parts : list string) : string :=
  match parts with
  | [] => EmptyString
  | [p] => p
  | p :: rest => p +:+ sep +:+ join sep rest
  end.

(** [parts[-1]] on a list known to be non-empty ([split] never returns
    the empty list, where Python would raise). *)
Fixpoint last_field (parts : list string) : string :=
  match parts with
  | [] => EmptyString
  | [p] => p
  | _ :: rest => last_field rest
  end.

(** [c in s]. *)
Fixpoint mem_char (c : ascii) (s : string) : bool :=
  match s with
  | EmptyString => false
  | String d t => Ascii.eqb c d || mem_char c t
  end.

(** The last byte of [s] is [c]. *)
Fixpoint ends_with (c : ascii) (s : string) : bool :=
  match s with
  | EmptyString => false
  | String d EmptyString => Ascii.eqb d c
  | String _ t => ends_with c t
  end.

(** [s.endswith(suffix)]. *)
Fixpoint has_suffix (suffix s : string) : bool :=
  String.eqb suffix s
  || match s with
     | EmptyString => false
     | String _ t => has_suffix suffix t
     end.

(** [b] is the part of [e] after its last [sep] (all of [e] when it has
    none). *)
Definition after_last (sep : ascii) (b e : string) : Prop :=
  exists dir : string,
    e = dir +:+ b /\ mem_char sep b = false
    /\ (dir = "" \/ ends_with sep dir = true).

(** ** The fragment of Python's [re] that the program's patterns use *)

Module Re.

(** Pattern syntax trees.  Capturing groups do not change whether a
    pattern matches, so a group is its body. *)
Inductive regex : Type :=
  | Eps
  | Chr (c : ascii)
  | Any
  | Bol
  | Eol
  | Seq (a b : regex)
  | Alt (a b : regex)
  | Opt (a : regex)
  | Star (a : regex)
  | Plus (a : regex).

Definition is_repeat (c : ascii) : bool :=
  Ascii.eqb c "*" || Ascii.eqb c "+" || Ascii.eqb c "?".

Definition starts_with_repeat (s : string) : bool :=
  match s with
  | String c _ => is_repeat c
  | EmptyString => false
  end.

Definition repeat_of (c : ascii) (a : regex) : regex :=
  if Ascii.eqb c "*" then Star a
  else if Ascii.eqb c "+" then Plus a
  else Opt a.

(** The bytes with a meaning of their own in a pattern. *)
Definition special_chars : string := ".\[]{}()*+?^$|".

Definition is_literal (c : ascii) : bool := negb (mem_char c special_chars).

Definition is_alnum (c : ascii) : bool :=
  let n := nat_of_ascii c in
  (Nat.leb 48 n && Nat.leb n 57) || (Nat.leb 65 n && Nat.leb n 90)
  || (Nat.leb 97 n && Nat.leb n 122).

(** A one-byte atom followed by at most one of [*], [+], [?].  A second
    repetition sign (a lazy repeat, or Python's "multiple repeat" error)
    is outside the fragment. *)
Definition quantified (a : regex) (s : string) : option (regex * string) :=
  match s with
  | String c t =>
      if is_repeat c
      then if starts_with_repeat t then None else Some (repeat_of c a, t)
      else Some (a, s)
  | EmptyString => Some (a, s)
  end.

Definition finish (alt : option regex) (seq : regex) : regex :=
  match alt with
  | None => seq
  | Some a => Alt a seq
  end.

(** Recursive descent over the pattern text: [alt] holds the
    alternatives already closed by a [|], [seq] the items of the current
    one.  It stops at the end of the text or in front of a [)].  [None]
    is a pattern outside the fragment (character classes, counted and
    lazy repeats, repeated groups, [(?...)] and alphanumeric escapes) or
    one that [re.compile] rejects. *)
Fixpoint parse (fuel : nat) (s : string) (alt : option regex) (seq : regex)
  : option (regex * string) :=
  match fuel with
  | O => None
  | S f =>
    match s with
    | EmptyString => Some (finish alt seq, EmptyString)
    | String c t =>
      if Ascii.eqb c ")" then Some (finish alt seq, s)
      else if Ascii.eqb c "|" then parse f t (Some (finish alt seq)) Eps
      else if Ascii.eqb c "(" then
        match t with
        | String "?" _ => None
        | _ =>
          match parse f t None Eps with
          | Some (r, String ")" t') =>
              if starts_with_repeat t' then None
              else parse f t' alt (Seq seq r)
          | _ => None
          end
        end
      else if Ascii.eqb c "^" then
        if starts_with_repeat t then None else parse f t alt (Seq seq Bol)
      else if Ascii.eqb c "$" then
        if starts_with_repeat t then None else parse f t alt (Seq seq Eol)
      else if Ascii.eqb c "\" then
        match t with
        | String e t' =>
            if is_alnum e then None
            else match quantified (Chr e) t' with
                 | Some (a, t'') => parse f t'' alt (Seq seq a)
                 | None => None
                 end
        | EmptyString => None
        end
      else if is_literal c || Ascii.eqb c "." then
        match quantified (if Ascii.eqb c "." then Any else Chr c) t with
        | Some (a, t'') => parse f t'' alt (Seq seq a)
        | None => None
        end
      else None
    end
  end.

(** [re.compile(pattern)] without flags. *)
Definition compile (pattern : string) : option regex :=
  match parse (S (String.length pattern)) pattern None Eps with
  | Some (r, EmptyString) => Some r
  | _ => None
  end.

(** A position in the subject: whether it is the start of the subject,
    and the text that remains. *)
Definition pos : Type := bool * string.

(** [$] without MULTILINE: the end of the subject, or just before a
    newline that ends it. *)
Definition at_eol (s : string) : bool :=
  match s with
  | EmptyString => true
  | String c EmptyString => Ascii.eqb c LF
  | _ => false
  end.

(** Zero or more rounds of [step]; a round that consumes nothing is not
    repeated. *)
Fixpoint iterate (step : bool -> string -> list pos) (n : nat)
  (bol : bool) (s : string) : list pos :=
  match n with
  | O => [(bol, s)]
  | S n' =>
      flat_map (fun p : pos =>
                  if Nat.ltb (String.length p.2) (String.length s)
                  then iterate step n' p.1 p.2 else [])
               (step bol s)
      ++ [(bol, s)]
  end.

(** Every position at which a match of [r] that starts at [(bol, s)] can
    end, in the order a backtracking matcher tries them. *)
Fixpoint ends (r : regex) (bol : bool) (s : string) : list pos :=
  match r with
  | Eps => [(bol, s)]
  | Chr c =>
      match s with
      | String d t => if Ascii.eqb c d then [(false, t)] else []
      | EmptyString => []
      end
  | Any =>
      match s with
      | String d t => if Ascii.eqb d LF then [] else [(false, t)]
      | EmptyString => []
      end
  | Bol => if bol then [(bol, s)] else []
  | Eol => if at_eol s then [(bol, s)] else []
  | Seq a b => flat_map (fun p : pos => ends b p.1 p.2) (ends a bol s)
  | Alt a b => ends a bol s ++ ends b bol s
  | Opt a => ends a bol s ++ [(bol, s)]
  | Star a => iterate (ends a) (String.length s) bol s
  | Plus a =>
      flat_map (fun p : pos => iterate (ends a) (String.length p.2) p.1 p.2)
               (ends a bol s)
  end.

(** [pattern.match(subject)] as a truth value: is there a match that
    starts at the first byte of the subject? *)
Definition match_ (r : regex) (subject : string) : bool :=
  match ends r true subject with
  | [] => false
  | _ :: _ => true
  end.

(** *** Patterns by shape *)

(** The pattern of a text without special bytes, read after [seq]. *)
Fixpoint lits (seq : regex) (k : string) : regex :=
  match k with
  | EmptyString => seq
  | String c t => lits (Seq seq (Chr c)) t
  end.

(** No byte of [k] has a meaning in a pattern. *)
Fixpoint all_literal (k : string) : bool :=
  match k with
  | EmptyString => true
  | String c t => is_literal c && all_literal t
  end.

(** The start of every Filter pattern: [^-?]. *)
Definition dash_prefix : regex := Seq (Seq Eps Bol) (Opt (Chr "-")).

(** The pattern a Filter compiles for a key without special bytes. *)
Definition filter_regex (k : string) : regex := lits dash_prefix k.

(** The six alternatives of the episode pattern. *)
Definition extensions : list string :=
  ["avi"; "mpg"; "mpeg"; "mp4"; "mkv"; "vob"].

Definition ext_alternatives : regex :=
  Alt (Alt (Alt (Alt (Alt (lits Eps "avi") (lits Eps "mpg")) (lits Eps "mpeg"))
                (lits Eps "mp4")) (lits Eps "mkv")) (lits Eps "vob").

End Re.

(** The path ends with one of the six extensions. *)
Definition ends_with_extension (path : string) : bool :=
  existsb (fun tok => has_suffix tok path) Re.extensions.

(** ** Top-level functions *)

(** [is_enabled_filter]: the polarity of a token.  Indexing the empty
    string raises IndexError, which the function catches to answer
    [False]. *)
Definition is_enabled_filter (filter_string : string) : bool :=
  match filter_string with
  | String c _ => negb (Ascii.eqb c "-")
  | EmptyString => false
  end.

Definition playlist_entry (episode : string) : string :=
  "#EXTINFO:0," +:+ last_field (split "/" episode) +:+ String LF "" +:+ episode.

Definition playlist_contents (episodes : list string) : string :=
  ("#EXTM3U" +:+ String LF "") +:+ join (String LF "") (map playlist_entry episodes).

(** ** Exceptions and the operating system *)

Inductive exn : Type :=
  | OSError        (* os.listdir on a path that cannot be listed *)
  | RuntimeError.  (* maximum recursion depth exceeded *)

Inductive result (A : Type) : Type :=
  | Ok (a : A)
  | Raise (e : exn).
Arguments Ok {A} a.
Arguments Raise {A} e.

(** What the program asks of the file system: [os.listdir] ([None] when
    it raises), [os.path.isfile] and [os.path.isdir]. *)
Record OS : Type := mkOS {
  listdir : string -> option (list string);
  isfile : string -> bool;
  isdir : string -> bool
}.

(** [os.path.join(a, b)] of posixpath. *)
Definition path_join (a b : string) : string :=
  match b with
  | String "/" _ => b
  | _ =>
      match a with
      | EmptyString => b
      | _ => if ends_with "/" a then a +:+ b else a +:+ "/" +:+ b
      end
  end.

(** ** Show *)

Module Show.

Record t : Type := mk {
  name : string;
  eplist : list string;
  path : string;
  enabled : bool
}.

Definition init (name base_path : string) : t :=
  {| name := name; eplist := []; path := base_path +:+ "/" +:+ name;
     enabled := false |}.

Definition with_enabled (e : bool) (sh : t) : t :=
  {| name := name sh; eplist := eplist sh; path := path sh; enabled := e |}.

Definition with_eplist (l : list string) (sh : t) : t :=
  {| name := name sh; eplist := l; path := path sh; enabled := enabled sh |}.

(** The pattern of [__episodes_for_path]. *)
Definition ext_pattern : string := ".*(avi|mpg|mpeg|mp4|mkv|vob)$".

Definition ext : Re.regex :=
  Eval vm_compute in
    match Re.compile ext_pattern with Some r => r | None => Re.Eps end.

(** The body of the loop over [os.listdir(path)]; [recur] is the method
    itself, one level deeper. *)
Fixpoint scan_nodes (os : OS) (recur : string -> result (list string))
  (path : string) (nodes : list string) (files : list string)
  : result (list string) :=
  match nodes with
  | [] => Ok files
  | node :: rest =>
      let node := path_join path node in
      if isfile os node then
        scan_nodes os recur path rest
          (if Re.match_ ext node then files ++ [node] else files)
      else if isdir os node then
        match recur node with
        | Ok nested =>
            scan_nodes os recur path rest
              (files ++ List.filter (Re.match_ ext) nested)
        | Raise e => Raise e
        end
      else scan_nodes os recur path rest files
  end.

(** [__episodes_for_path]; [depth] is the number of nested calls the
    interpreter still allows. *)
Fixpoint episodes_for_path (os : OS) (depth : nat) (path : string)
  : result (list string) :=
  match depth with
  | O => Raise RuntimeError
  | S d =>
      match listdir os path with
      | None => Raise OSError
      | Some nodes => scan_nodes os (episodes_for_path os d) path nodes []
      end
  end.

(** [episodes]: the method on one Show object; it returns the list and
    the object as the call leaves it. *)
Definition episodes (os : OS) (depth : nat) (self : t)
  : result (list string) * t :=
  match eplist self with
  | [] =>
      match episodes_for_path os depth (path self) with
      | Ok l => (Ok l, with_eplist l self)
      | Raise e => (Raise e, self)
      end
  | _ :: _ => (Ok (eplist self), self)
  end.

End Show.

(** A path the scanner returns: a regular file that the pattern
    accepts. *)
Definition kept (os : OS) (p : string) : Prop :=
  isfile os p = true /\ Re.match_ Show.ext p = true.

(** ** Filter and Group *)

(** Object identities of Shows in the store. *)
Definition loc : Type := nat.

Module Filter.

Record t : Type := mk {
  regex : Re.regex;
  shows : list loc
}.

(** [Filter(match, shows)]; [None] when the pattern does not compile in
    the fragment. *)
Definition init (match_key : string) (shows : list loc) : option t :=
  match Re.compile ("^-?" +:+ match_key) with
  | Some r => Some {| regex := r; shows := shows |}
  | None => None
  end.

Definition match_ (self : t) (against : string) : bool :=
  Re.match_ (regex self) against.

End Filter.

Module Group.

(** The [showlist] field always holds the registry that [add_group] was
    called on; it is the registry the operations below run on. *)
Record t : Type := mk {
  regex : Re.regex;
  filter_string : string
}.

Definition init (match_key filter_string : string) : option t :=
  match Re.compile match_key with
  | Some r => Some {| regex := r; filter_string := filter_string |}
  | None => None
  end.

Definition match_ (self : t) (against : string) : bool :=
  Re.match_ (regex self) against.

End Group.

(** A value of the [filters] dictionary. *)
Inductive entry : Type :=
  | AFilter (f : Filter.t)
  | AGroup (g : Group.t).

Definition entry_match (e : entry) (against : string) : bool :=
  match e with
  | AFilter f => Filter.match_ f against
  | AGroup g => Group.match_ g against
  end.

(** ** random.shuffle *)

(** [x[i], x[j] = x[j], x[i]]. *)
Definition swap {A : Type} (x : list A) (i j : nat) : list A :=
  match x !! i, x !! j with
  | Some a, Some b => <[j := a]> (<[i := b]> x)
  | _, _ => x
  end.

(** The loop of [random.shuffle] from index [i] down to [1]; [rnd i] is
    the value [int(random() * (i + 1))] takes in the round for index [i],
    which is at most [i]. *)
Fixpoint shuffle_from {A : Type} (rnd : nat -> nat) (i : nat) (x : list A)
  : list A :=
  match i with
  | O => x
  | S i' => shuffle_from rnd i' (swap x i (rnd i mod S i))
  end.

Definition shuffle {A : Type} (rnd : nat -> nat) (x : list A) : list A :=
  shuffle_from rnd (length x - 1) x.

(** [x[0:count]]: a negative bound counts from the end. *)
Definition slice_to {A : Type} (count : Z) (x : list A) : list A :=
  if (count <? 0)%Z
  then take (Z.to_nat (Z.of_nat (length x) + count)) x
  else take (Z.to_nat count) x.

(** ** ShowList *)

Module ShowList.

(** The registry and the Shows it can reach: the two dictionaries in the
    order their [values()] are iterated, and the store holding the Show
    objects that the dictionary and the Filters refer to.  Every
    reference of a Python program is to an object; on an identity
    outside the store the operations below do nothing. *)
Record t : Type := mk {
  shows : list (string * loc);
  filters : list (string * entry);
  store : gmap loc Show.t
}.

(** Computations on a registry that return or raise. *)
Definition M (A : Type) : Type := t -> result A * t.

Definition ret {A : Type} (a : A) : M A := fun st => (Ok a, st).

Definition raise {A : Type} (e : exn) : M A := fun st => (Raise e, st).

Definition bind {A B : Type} (m : M A) (k : A -> M B) : M B :=
  fun st =>
    match m st with
    | (Ok a, st') => k a st'
    | (Raise e, st') => (Raise e, st')
    end.

Notation "'let!' x := m 'in' k" := (bind m (fun x => k))
  (at level 10, x name, m at level 100, k at level 200).

(** [for a in l: body(a)]. *)
Fixpoint for_each {A : Type} (body : A -> M unit) (l : list A) : M unit :=
  match l with
  | [] => ret tt
  | a :: rest => let! _ := body a in for_each body rest
  end.

(** [show.enabled = e] on the object [o]. *)
Definition set_enabled (e : bool) (o : loc) : M unit :=
  fun st =>
    (Ok tt,
     {| shows := shows st; filters := filters st;
        store := alter (Show.with_enabled e) o (store st) |}).

(** [Filter.run]. *)
Definition Filter_run (self : Filter.t) (enable : bool) : M unit :=
  for_each (set_enabled enable) (Filter.shows self).

(** [Group.run]: the argument is dropped; [filter] is the registry's
    method, entered one call deeper. *)
Definition Group_run (filter : string -> M unit) (self : Group.t)
  (_ : bool) : M unit :=
  filter (Group.filter_string self).

Definition entry_run (filter : string -> M unit) (e : entry)
  (enable : bool) : M unit :=
  match e with
  | AFilter f => Filter_run f enable
  | AGroup g => Group_run filter g enable
  end.

(** The inner loop of [filter]: run the first value that matches, then
    [break]. *)
Fixpoint run_first_match (filter : string -> M unit) (token : string)
  (enable_or_disable : bool) (values : list entry) : M unit :=
  match values with
  | [] => ret tt
  | f :: rest =>
      if entry_match f token then entry_run filter f enable_or_disable
      else run_first_match filter token enable_or_disable rest
  end.

Definition all_pseudo_pattern : string := "^-?all$".

Definition all_pseudo_filter : Re.regex :=
  Eval vm_compute in
    match Re.compile all_pseudo_pattern with Some r => r | None => Re.Eps end.

(** The body of the loop over the tokens. *)
Definition filter_token (filter : string -> M unit) (token : string)
  : M unit :=
  let enable_or_disable := is_enabled_filter token in
  if Re.match_ all_pseudo_filter token
  then fun st => for_each (set_enabled enable_or_disable) (shows st).*2 st
  else fun st =>
         run_first_match filter token enable_or_disable (filters st).*2 st.

(** [filter]; [depth] is the number of nested Group expansions the
    interpreter's recursion limit still allows: at [0] a Group's [run]
    raises instead of entering [filter] again. *)
Fixpoint filter (depth : nat) (filter_string : string) : M unit :=
  for_each
    (filter_token
       match depth with
       | O => fun _ => raise RuntimeError
       | S d => filter d
       end)
    (split " " filter_string).

(** [show.episodes()] on the object [o] of the store. *)
Definition episodes (os : OS) (depth : nat) (o : loc) : M (list string) :=
  fun st =>
    match store st !! o with
    | Some sh =>
        let '(r, sh') := Show.episodes os depth sh in
        (r, {| shows := shows st; filters := filters st;
               store := <[o := sh']> (store st) |})
    | None => (Ok [], st)
    end.

Definition is_enabled (o : loc) (st : t) : bool :=
  match store st !! o with
  | Some sh => Show.enabled sh
  | None => false
  end.

(** The first loop of [random_episodes]: the pool. *)
Fixpoint all_matching_episodes (os : OS) (depth : nat) (values : list loc)
  (acc : list string) : M (list string) :=
  match values with
  | [] => ret acc
  | show :: rest =>
      fun st =>
        if is_enabled show st
        then (let! eps := episodes os depth show in
              all_matching_episodes os depth rest (acc ++ eps)) st
        else all_matching_episodes os depth rest acc st
  end.

Definition random_episodes (os : OS) (depth : nat) (rnd : nat -> nat)
  (count : Z) : M (list string) :=
  fun st =>
    (let! pool := all_matching_episodes os depth (shows st).*2 [] in
     ret (slice_to count (shuffle rnd pool))) st.

(** *** Notions the properties are stated with *)

(** The method a Group's [run] enters when [filter] runs at [depth]. *)
Definition nested_filter (depth : nat) : string -> M unit :=
  match depth with
  | O => fun _ => raise RuntimeError
  | S d => filter d
  end.

(** What a call leaves alone when it changes enabled flags at most: the
    two dictionaries, the set of Show objects, and the name, path and
    episode list of each. *)
Definition same_but_enabled (st st' : t) : Prop :=
  shows st' = shows st /\ filters st' = filters st
  /\ forall o : loc,
       match store st !! o, store st' !! o with
       | Some sh, Some sh' =>
           Show.name sh' = Show.name sh /\ Show.path sh' = Show.path sh
           /\ Show.eplist sh' = Show.eplist sh
       | None, None => True
       | _, _ => False
       end.

(** The episode lists of the enabled Shows among [values], as cached. *)
Definition cached_pool (st : t) (values : list loc) : list string :=
  flat_map (fun o => match store st !! o with
                     | Some sh => if Show.enabled sh then Show.eplist sh else []
                     | None => []
                     end) values.

End ShowList.

(** ** Concrete registries *)

Module Examples.
Import ShowList.

(** The Shows A and B as [add_show] creates them. *)
Definition two_shows : gmap loc Show.t :=
  <[0 := Show.init "A" "."]> (<[1 := Show.init "B" "."]> ∅).

Definition filter_a : Filter.t :=
  {| Filter.regex := Re.filter_regex "a"; Filter.shows := [0] |}.

Definition filter_b : Filter.t :=
  {| Filter.regex := Re.filter_regex "b"; Filter.shows := [1] |}.

Definition filter_f : Filter.t :=
  {| Filter.regex := Re.filter_regex "f"; Filter.shows := [1] |}.

Definition fav_group : Group.t :=
  {| Group.regex := Re.lits Re.Eps "fav";
     Group.filter_string := "-all a" |}.

Definition all_group : Group.t :=
  {| Group.regex := Re.lits Re.Eps "all"; Group.filter_string := "-all" |}.

(** Show A with the Filter a, Show B with the Filter b, and the Group
    fav. *)
Definition registry : t :=
  {| shows := [("A", 0); ("B", 1)];
     filters := [("a", AFilter filter_a); ("b", AFilter filter_b);
                 ("fav", AGroup fav_group)];
     store := two_shows |}.

(** The same, with f for the key of the Filter of Show B: a prefix of
    fav, met before the Group. *)
Definition shadowed : t :=
  {| shows := [("A", 0); ("B", 1)];
     filters := [("a", AFilter filter_a); ("f", AFilter filter_f);
                 ("fav", AGroup fav_group)];
     store := two_shows |}.

(** The two Filters and a Group registered under the key all. *)
Definition group_named_all : t :=
  {| shows := [("A", 0); ("B", 1)];
     filters := [("a", AFilter filter_a); ("b", AFilter filter_b);
                 ("all", AGroup all_group)];
     store := two_shows |}.

(** Show B with its Filter b, and nothing under a key that starts a
    token with the letter a. *)
Definition only_b : t :=
  {| shows := [("A", 0); ("B", 1)];
     filters := [("b", AFilter filter_b)];
     store := two_shows |}.

End Examples.

Module ScanExamples.

Definition show_S : Show.t := Show.init "S" ".".

Definition two_lines : string := "two" +:+ String LF "lines.avi".
Definition tail_newline : string := "tail.avi" +:+ String LF "".

(** A directory ./S of five regular files. *)
Definition media_os : OS :=
  {| listdir := fun p =>
       if String.eqb p "./S"
       then Some ["clip.mp4"; "weirdavi"; "notes.txt"; two_lines; tail_newline]
       else None;
     isfile := fun p => negb (String.eqb p "./S");
     isdir := fun p => String.eqb p "./S" |}.

(** The directory ./S while it is empty. *)
Definition empty_os : OS :=
  {| listdir := fun p => if String.eqb p "./S" then Some [] else None;
     isfile := fun _ => false;
     isdir := fun p => String.eqb p "./S" |}.

(** The directory ./S after a file has been added. *)
Definition later_os : OS :=
  {| listdir := fun p => if String.eqb p "./S" then Some ["x.avi"] else None;
     isfile := fun p => String.eqb p "./S/x.avi";
     isdir := fun p => String.eqb p "./S" |}.

End ScanExamples.

Module PoolExamples.
Import ShowList.

(** Show A enabled with five cached episodes, Show B disabled. *)
Definition cached : t :=
  {| shows := [("A", 0); ("B", 1)];
     filters := [];
     store :=
       <[0 := {| Show.name := "A";
                 Show.eplist := ["./A/1.avi"; "./A/2.avi"; "./A/3.avi";
                                 "./A/4.avi"; "./A/5.avi"];
                 Show.path := "./A"; Show.enabled := true |}]>
       (<[1 := {| Show.name := "B"; Show.eplist := ["./B/1.avi"];
                  Show.path := "./B"; Show.enabled := false |}]> ∅) |}.

(** Two enabled Shows, the directory of the second inside the directory
    of the first. *)
Definition nested : t :=
  {| shows := [("a", 0); ("a/b", 1)];
     filters := [];
     store :=
       <[0 := Show.with_enabled true (Show.init "a" ".")]>
       (<[1 := Show.with_enabled true (Show.init "a/b" ".")]> ∅) |}.

(** ./a holds the directory b, which holds the file x.avi. *)
Definition nested_os : OS :=
  {| listdir := fun p =>
       if String.eqb p "./a" then Some ["b"]
       else if String.eqb p "./a/b" then Some ["x.avi"]
       else None;
     isfile := fun p => String.eqb p "./a/b/x.avi";
     isdir := fun p => String.eqb p "./a" || String.eqb p "./a/b" |}.

End PoolExamples.

(** ** Listing: [name_in_colour] and [shortcuts] *)

Module Listing.
Import ShowList.

Fixpoint spaces (n : nat) : string :=
  match n with
  | O => EmptyString
  | S n' => String " " (spaces n')
  end.

(** [s.rjust(width)]: spaces in front, up to [width] bytes; a longer
    text is returned as it is. *)
Definition rjust (width : nat) (s : string) : string :=
  spaces (width - String.length s) +:+ s.

(** [str(n)] of a length. *)
Definition str (n : nat) : string := NilEmpty.string_of_uint (Nat.to_uint n).

(** The escape byte of the colour codes. *)
Definition ESC : ascii := "027"%char.

Definition green : string := String ESC "[32m".
Definition red : string := String ESC "[31m".
Definition black : string := String ESC "[30m".
Definition reset : string := String ESC "[0m".

(** [Show.name_in_colour] on one Show object. *)
Definition show_name_in_colour (os : OS) (depth : nat) (self : Show.t)
  : result string * Show.t :=
  let out := if Show.enabled self then green else red in
  match Show.episodes os depth self with
  | (Ok eps, self') =>
      (Ok (out +:+ Show.name self +:+ " " +:+ black +:+ "("
           +:+ str (length eps) +:+ ")" +:+ reset), self')
  | (Raise e, self') => (Raise e, self')
  end.

(** The same on the object [o] of the store. *)
Definition name_in_colour (os : OS) (depth : nat) (o : loc) : M string :=
  fun st =>
    match store st !! o with
    | Some sh =>
        let '(r, sh') := show_name_in_colour os depth sh in
        (r, {| shows := shows st; filters := filters st;
               store := <[o := sh']> (store st) |})
    | None => (Ok EmptyString, st)
    end.

(** [[body(a) for a in l]]. *)
Fixpoint map_each {A B : Type} (body : A -> M B) (l : list A) : M (list B) :=
  match l with
  | [] => ret []
  | a :: rest =>
      let! b := body a in
      let! bs := map_each body rest in
      ret (b :: bs)
  end.

(** [d[k]] on a dictionary given as its items; a key of the dictionary
    has one item. *)
Fixpoint dict_get {V : Type} (k : string) (d : list (string * V)) : option V :=
  match d with
  | [] => None
  | (k', v) :: rest => if String.eqb k k' then Some v else dict_get k rest
  end.

(** [keys.sort()]: byte strings in ascending order. *)
Definition sorted_keys {V : Type} (d : list (string * V)) : list string :=
  merge_sort String.le d.*1.

(** The keys under which the dictionary holds a Group, a Filter. *)
Definition is_group_key (d : list (string * entry)) (k : string) : bool :=
  match dict_get k d with
  | Some (AGroup _) => true
  | _ => false
  end.

Definition is_filter_key (d : list (string * entry)) (k : string) : bool :=
  match dict_get k d with
  | Some (AFilter _) => true
  | _ => false
  end.

(** The loop of [shortcuts] over the sorted keys; it returns [shorts]
    and [groups]. *)
Fixpoint shortcuts_loop (os : OS) (depth : nat) (keys : list string)
  (shorts groups : list string) : M (list string * list string) :=
  match keys with
  | [] => ret (shorts, groups)
  | name :: rest =>
      fun st =>
        match dict_get name (filters st) with
        | Some (AFilter f) =>
            (let! labels := map_each (name_in_colour os depth) (Filter.shows f) in
             shortcuts_loop os depth rest
               (shorts ++ [rjust 20 name +:+ " : " +:+ join ", " labels])
               groups) st
        | Some (AGroup _) =>
            shortcuts_loop os depth rest shorts (groups ++ [name]) st
        | None => shortcuts_loop os depth rest shorts groups st
        end
  end.

Definition shortcuts (os : OS) (depth : nat) : M string :=
  fun st =>
    (let! lists := shortcuts_loop os depth (sorted_keys (filters st)) [] [] in
     ret (rjust 23 "Groups : " +:+ join " " lists.2
          +:+ String LF (String LF "") +:+ join (String LF "") lists.1)) st.

(** A line of the listing for the key [k]: the key behind the spaces
    that bring it to twenty bytes, a colon, and the labels. *)
Definition line_of (k line : string) : Prop :=
  exists labels : string,
    line = spaces (20 - String.length k) +:+ k +:+ " : " +:+ labels.

End Listing.

(** ** Registration: [__init__], [add_show], [add_filter], [add_group] *)

Module Registry.
Import ShowList.

(** Where a dictionary puts a new key among the items it holds: the
    iteration order after an insertion is the hash table's, which may
    move every item. *)
Record hash_order : Type := mk_hash_order {
  place : forall V : Type, list (string * V) -> list (string * V);
  place_perm : forall (V : Type) (l : list (string * V)), place V l ≡ₚ l
}.

(** The order of insertion, one of the possible orders. *)
Definition insertion_order : hash_order :=
  {| place := fun V l => l; place_perm := fun V l => Permutation_refl l |}.

Definition has_key {V : Type} (k : string) (d : list (string * V)) : bool :=
  existsb (fun kv => String.eqb k kv.1) d.

(** [d[k] = v]: the value of a key the dictionary has is replaced where
    it stands; a new key is put where the hash table has it. *)
Definition dict_set {V : Type} (h : hash_order) (k : string) (v : V)
  (d : list (string * V)) : list (string * V) :=
  if has_key k d
  then map (fun kv => if String.eqb k kv.1 then (k, v) else kv) d
  else place h V ((k, v) :: d).

(** How a registration ends: it returns, or the key was [None] and the
    concatenation with the pattern prefix raised TypeError, or the key
    was not compiled ([re.compile] raised, or the key is outside the
    fragment of [Re]). *)
Inductive registration : Type :=
  | Registered
  | TypeError
  | NotCompiled.

(** [ShowList()]. *)
Definition init : t := {| shows := []; filters := []; store := ∅ |}.

Definition add_filter (h : hash_order) (match_key : option string)
  (shows_ : list loc) (st : t) : registration * t :=
  match match_key with
  | None => (TypeError, st)
  | Some k =>
      match Filter.init k shows_ with
      | Some f =>
          (Registered,
           {| shows := shows st;
              filters := dict_set h k (AFilter f) (filters st);
              store := store st |})
      | None => (NotCompiled, st)
      end
  end.

Definition add_group (h : hash_order) (match_key filter_string : string)
  (st : t) : registration * t :=
  match Group.init match_key filter_string with
  | Some g =>
      (Registered,
       {| shows := shows st;
          filters := dict_set h match_key (AGroup g) (filters st);
          store := store st |})
  | None => (NotCompiled, st)
  end.

(** [add_show]: the new Show object gets an identity no object has; it
    is registered under its name before the Filter of its abbreviation
    is made. *)
Definition add_show (h_shows h_filters : hash_order) (name : string)
  (abbrev : option string) (base_path : string) (st : t) : registration * t :=
  let o := fresh (dom (store st)) in
  add_filter h_filters abbrev [o]
    {| shows := dict_set h_shows name o (shows st);
       filters := filters st;
       store := <[o := Show.init name base_path]> (store st) |}.

(** The invariant of a registry: no key twice in a dictionary, and an
    object in the store for every identity that the shows dictionary or
    a Filter holds. *)
Definition well_formed (st : t) : Prop :=
  NoDup (shows st).*1 /\ NoDup (filters st).*1
  /\ (forall name o, (name, o) ∈ shows st -> is_Some (store st !! o))
  /\ (forall k f o, (k, AFilter f) ∈ filters st -> o ∈ Filter.shows f ->
                    is_Some (store st !! o)).

End Registry.

(** ** What a call leaves alone when it fills caches at most *)

Module Caches.
Import ShowList.

(** Both dictionaries and the set of Show objects are the same, and so
    are the name, the path and the enabled flag of each Show; an episode
    list is the same or was empty. *)
Definition same_but_caches (st st' : t) : Prop :=
  shows st' = shows st /\ filters st' = filters st
  /\ forall o : loc,
       match store st !! o, store st' !! o with
       | Some sh, Some sh' =>
           Show.name sh' = Show.name sh /\ Show.path sh' = Show.path sh
           /\ Show.enabled sh' = Show.enabled sh
           /\ (Show.eplist sh' = Show.eplist sh \/ Show.eplist sh = [])
       | None, None => True
       | _, _ => False
       end.

End Caches.

(** ** The pool of [random_episodes], read off the registry *)

Module Pool.
Import ShowList.

(** What [episodes()] answers for a Show: the cached list when it is not
    empty, the scan of the Show's path otherwise. *)
Definition episodes_of (os : OS) (depth : nat) (sh : Show.t)
  : result (list string) :=
  match Show.eplist sh with
  | [] => Show.episodes_for_path os depth (Show.path sh)
  | _ :: _ => Ok (Show.eplist sh)
  end.

(** What the object [o] adds to the pool: the episodes of an enabled
    Show, nothing for a disabled one. *)
Definition contribution (os : OS) (depth : nat) (st : t) (o : loc)
  : result (list string) :=
  match store st !! o with
  | Some sh => if Show.enabled sh then episodes_of os depth sh else Ok []
  | None => Ok []
  end.

(** The lists one after the other, or the first exception among them. *)
Fixpoint concat_results (rs : list (result (list string)))
  : result (list string) :=
  match rs with
  | [] => Ok []
  | Ok l :: rest =>
      match concat_results rest with
      | Ok ls => Ok (l ++ ls)
      | Raise e => Raise e
      end
  | Raise e :: _ => Raise e
  end.

(** The pool: the episodes of every enabled Show of the shows
    dictionary, in the order of the dictionary. *)
Definition pool (os : OS) (depth : nat) (st : t) : result (list string) :=
  concat_results (map (contribution os depth st) (shows st).*2).

End Pool.

(** ** More concrete registries *)

Module MoreExamples.
Import ShowList.

(** A Group whose filter-string is its own key. *)
Definition loop_group : Group.t :=
  {| Group.regex := Re.lits Re.Eps "loop"; Group.filter_string := "loop" |}.

Definition looping : t :=
  {| shows := [("A", 0); ("B", 1)];
     filters := [("a", AFilter Examples.filter_a);
                 ("loop", AGroup loop_group)];
     store := Examples.two_shows |}.

(** Shows with cached episodes, two Filters and a Group. *)
Definition listed : t :=
  {| shows := [("A", 0); ("B", 1)];
     filters := [("fav", AGroup Examples.fav_group);
                 ("b", AFilter Examples.filter_b);
                 ("a", AFilter Examples.filter_a)];
     store := store PoolExamples.cached |}.

(** The listing of [listed]. *)
Definition listed_text : string :=
  Eval vm_compute in
    match (Listing.shortcuts ScanExamples.empty_os 0 listed).1 with
    | Ok text => text
    | Raise _ => EmptyString
    end.

End MoreExamples.

(** * Properties *)

(** ** Byte strings *)

Lemma app_cons (c : ascii) (s t : string) :
  String c s +:+ t = String c (s +:+ t).
Proof. reflexivity. Qed.

Lemma app_nil_l (s : string) : "" +:+ s = s.
Proof. reflexivity. Qed.

Lemma app_nil_r (s : string) : s +:+ "" = s.
Proof. induction s as [|c s IH]; [done | by rewrite app_cons, IH]. Qed.

Lemma app_assoc (s1 s2 s3 : string) : (s1 +:+ s2) +:+ s3 = s1 +:+ s2 +:+ s3.
Proof. induction s1 as [|c s1 IH]; [done | by rewrite !app_cons, IH]. Qed.

Lemma app_length (s1 s2 : string) :
  String.length (s1 +:+ s2) = String.length s1 + String.length s2.
Proof. induction s1 as [|c s1 IH]; [done | rewrite app_cons; simpl; by rewrite IH]. Qed.

Lemma split_nonempty (sep : ascii) (s : string) : split sep s <> [].
Proof.
  destruct s as [|c t]; simpl; [done |].
  destruct (Ascii.eqb c sep); [done |].
  by destruct (split sep t).
Qed.

Lemma last_field_cons (p : string) (l : list string) :
  l <> [] -> last_field (p :: l) = last_field l.
Proof. by destruct l. Qed.

Lemma mem_char_eqb (c d : ascii) (s : string) :
  mem_char c (String d s) = Ascii.eqb c d || mem_char c s.
Proof. reflexivity. Qed.

Lemma split_no_sep (sep : ascii) (s : string) :
  mem_char sep s = false -> split sep s = [s].
Proof.
  induction s as [|c t IH]; [done |].
  rewrite mem_char_eqb. intros [Hc Ht]%orb_false_elim.
  simpl. rewrite Ascii.eqb_sym, Hc, (IH Ht). done.
Qed.

Lemma split_app_sep (sep : ascii) (a b : string) :
  split sep (a +:+ String sep b) = split sep a ++ split sep b.
Proof.
  induction a as [|c a IH].
  - rewrite app_nil_l. simpl. by rewrite Ascii.eqb_refl.
  - rewrite app_cons. simpl. rewrite IH.
    destruct (Ascii.eqb c sep); [done |].
    destruct (split sep a) as [|h r] eqn:E; [by destruct (split_nonempty sep a) | done].
Qed.

Lemma last_field_app (l1 l2 : list string) :
  l2 <> [] -> last_field (l1 ++ l2) = last_field l2.
Proof.
  intros H. induction l1 as [|p l1 IH]; [done |].
  rewrite <- app_comm_cons, last_field_cons; [done |].
  by destruct l1, l2.
Qed.

Lemma last_sep_cases (sep : ascii) (e : string) :
  mem_char sep e = false
  \/ exists a b, e = a +:+ String sep b /\ mem_char sep b = false.
Proof.
  induction e as [|c t IH]; [by left |].
  destruct IH as [Hn | (a & b & -> & Hb)].
  - destruct (Ascii.eqb sep c) eqn:E.
    + right. exists "", t. apply Ascii.eqb_eq in E as ->. done.
    + left. by rewrite mem_char_eqb, E.
  - right. exists (String c a), b. done.
Qed.

Lemma ends_with_snoc (c : ascii) (s : string) :
  ends_with c (s +:+ String c "") = true.
Proof.
  induction s as [|d s IH]; [simpl; apply Ascii.eqb_refl |].
  rewrite app_cons. destruct s; [simpl; apply Ascii.eqb_refl | exact IH].
Qed.

Lemma last_field_split (sep : ascii) (e : string) :
  after_last sep (last_field (split sep e)) e.
Proof.
  destruct (last_sep_cases sep e) as [Hn | (a & b & -> & Hb)].
  - rewrite (split_no_sep _ _ Hn). exists "". auto.
  - rewrite split_app_sep, last_field_app by apply split_nonempty.
    rewrite (split_no_sep _ _ Hb). simpl.
    exists (a +:+ String sep ""). split; [by rewrite app_assoc |].
    split; [done | right; apply ends_with_snoc].
Qed.

Lemma join_snoc (sep p e : string) (l : list string) :
  join sep ((p :: l) ++ [e]) = join sep (p :: l) +:+ sep +:+ e.
Proof.
  revert p. induction l as [|q l IH]; intros p; [done |].
  change (join sep ((p :: q :: l) ++ [e]))
    with (p +:+ sep +:+ join sep ((q :: l) ++ [e])).
  rewrite IH.
  change (join sep (p :: q :: l)) with (p +:+ sep +:+ join sep (q :: l)).
  by rewrite !app_assoc.
Qed.

(** ** C6: the playlist text *)

(** C6.  [playlist_contents] of no episode is the header line alone; of
    the one episode /a/b/ep1.avi it is the header, the EXTINFO line with
    ep1.avi and the path; an episode adds to the entries before it one
    newline, its EXTINFO line with the part of the path after the last
    slash, a newline and the path, and nothing follows the last path. *)
Theorem playlist_contents_format :
  playlist_contents [] = "#EXTM3U" +:+ String LF ""
  /\ playlist_contents ["/a/b/ep1.avi"]
     = "#EXTM3U" +:+ String LF "" +:+ "#EXTINFO:0,ep1.avi" +:+ String LF ""
       +:+ "/a/b/ep1.avi"
  /\ (forall e : string,
        exists b, after_last "/" b e
        /\ playlist_contents [e]
           = "#EXTM3U" +:+ String LF "" +:+ "#EXTINFO:0," +:+ b
             +:+ String LF "" +:+ e)
  /\ (forall (e0 : string) (es : list string) (e : string),
        exists b, after_last "/" b e
        /\ playlist_contents ((e0 :: es) ++ [e])
           = playlist_contents (e0 :: es) +:+ String LF ""
             +:+ "#EXTINFO:0," +:+ b +:+ String LF "" +:+ e).
Proof.
  split; [reflexivity |]. split; [reflexivity |]. split.
  - intros e. exists (last_field (split "/" e)).
    split; [apply last_field_split | reflexivity].
  - intros e0 es e. exists (last_field (split "/" e)).
    split; [apply last_field_split |].
    unfold playlist_contents. rewrite map_app. simpl map.
    rewrite join_snoc. unfold playlist_entry at 3.
    by rewrite !app_assoc.
Qed.

(** ** C8: the polarity of a token *)

(** C8, as the code has it: the empty token is given the polarity
    "disable", because the IndexError of looking at its first byte is
    caught and answered with [False]; a token with a first byte is
    "enable" exactly when that byte is not the minus sign. *)
Theorem is_enabled_filter_polarity :
  is_enabled_filter "" = false
  /\ (forall (c : ascii) (t : string),
        is_enabled_filter (String c t) = negb (Ascii.eqb c "-")).
Proof. split; reflexivity. Qed.

(** C8 as stated fails: the empty token is not "enable". *)
Lemma is_enabled_filter_empty_not_enable : is_enabled_filter "" <> true.
Proof. discriminate. Qed.

(** ** The matcher *)

Module ReFacts.
Import Re.

Lemma match_true (r : regex) (s : string) :
  match_ r s = true <-> exists p, In p (ends r true s).
Proof.
  unfold match_. destruct (ends r true s) as [|p l].
  - split; [done | by intros [p []]].
  - split; [exists p; by left | done].
Qed.

Lemma match_false (r : regex) (s : string) :
  match_ r s = false <-> ends r true s = [].
Proof. unfold match_. by destruct (ends r true s). Qed.

Lemma in_ends_Chr (c : ascii) (bol : bool) (s : string) (p : pos) :
  In p (ends (Chr c) bol s) <-> s = String c p.2 /\ p.1 = false.
Proof.
  destruct p as [b t]. simpl. destruct s as [|d s']; [by split; [| intros []] |].
  destruct (Ascii.eqb c d) eqn:E.
  - apply Ascii.eqb_eq in E as ->. simpl. split.
    + by intros [[= <- <-] | []].
    + intros [[= <-] ->]. by left.
  - simpl. split; [done |]. intros [[= <- _] _]. by rewrite Ascii.eqb_refl in E.
Qed.

Lemma in_ends_Seq (a b : regex) (bol : bool) (s : string) (p : pos) :
  In p (ends (Seq a b) bol s)
  <-> exists q, In q (ends a bol s) /\ In p (ends b q.1 q.2).
Proof. simpl. apply in_flat_map. Qed.

Lemma in_ends_Opt (a : regex) (bol : bool) (s : string) (p : pos) :
  In p (ends (Opt a) bol s) <-> In p (ends a bol s) \/ p = (bol, s).
Proof. simpl. rewrite in_app_iff. simpl. intuition. Qed.

Lemma in_ends_Eol (bol : bool) (s : string) (p : pos) :
  In p (ends Eol bol s) <-> p = (bol, s) /\ (s = "" \/ s = String LF "").
Proof.
  simpl. destruct s as [|c [|d t]]; simpl.
  - intuition.
  - destruct (Ascii.eqb c LF) eqn:E; simpl.
    + apply Ascii.eqb_eq in E as ->. intuition.
    + split; [done |]. intros [_ [|[= ->]]]; [done |].
      by rewrite Ascii.eqb_refl in E.
  - split; [done |]. by intros [_ [|]].
Qed.

Lemma in_ends_lits (k : string) (seq : regex) (bol : bool) (s : string)
  (p : pos) :
  In p (ends (lits seq k) bol s)
  <-> exists q, In q (ends seq bol s) /\ q.2 = k +:+ p.2
                /\ p.1 = match k with EmptyString => q.1 | _ => false end.
Proof.
  revert seq. induction k as [|c k IH]; intros seq.
  - simpl. split.
    + intros H. exists p. done.
    + intros ([qb qs] & H & E1 & E2). destruct p. simpl in *. by subst.
  - simpl lits. rewrite IH. split.
    + intros (q' & H & E1 & E2). apply in_ends_Seq in H as (q & Hq & H).
      apply in_ends_Chr in H as [E3 E4]. exists q. split; [done |].
      rewrite app_cons, E3, E1. split; [done |].
      destruct k; [by rewrite E2 | done].
    + intros (q & Hq & E1 & E2). exists (false, k +:+ p.2). split.
      * apply in_ends_Seq. exists q. split; [done |].
        apply in_ends_Chr. by rewrite E1.
      * split; [done |]. by destruct k.
Qed.

Lemma literal_not_repeat (k : string) :
  all_literal k = true -> starts_with_repeat k = false.
Proof.
  destruct k as [|c k]; [done |]. simpl.
  intros [H _]%andb_prop. revert H.
  unfold is_literal, is_repeat, special_chars. simpl.
  by repeat (destruct (Ascii.eqb c _)).
Qed.

Lemma parse_literal_step (f : nat) (c : ascii) (t : string)
  (alt : option regex) (seq : regex) :
  is_literal c = true -> starts_with_repeat t = false ->
  parse (S f) (String c t) alt seq = parse f t alt (Seq seq (Chr c)).
Proof.
  intros Hc Ht. simpl. rewrite Hc. revert Hc.
  unfold is_literal, special_chars. simpl.
  destruct (Ascii.eqb c ".") eqn:E1; [done |].
  destruct (Ascii.eqb c "\") eqn:E2; [done |].
  destruct (Ascii.eqb c "(") eqn:E3; [by rewrite !orb_true_r |].
  destruct (Ascii.eqb c ")") eqn:E4; [by rewrite !orb_true_r |].
  destruct (Ascii.eqb c "^") eqn:E5; [by rewrite !orb_true_r |].
  destruct (Ascii.eqb c "$") eqn:E6; [by rewrite !orb_true_r |].
  destruct (Ascii.eqb c "|") eqn:E7; [by rewrite !orb_true_r |].
  intros _. unfold quantified.
  destruct t as [|d t']; [done |]. simpl in Ht. by rewrite Ht.
Qed.

Lemma parse_literals (k : string) (fuel : nat) (alt : option regex)
  (seq : regex) :
  all_literal k = true -> String.length k < fuel ->
  parse fuel k alt seq = Some (finish alt (lits seq k), "").
Proof.
  revert fuel seq. induction k as [|c k IH]; intros fuel seq Hk Hf.
  - destruct fuel; [lia | done].
  - destruct fuel as [|f]; [simpl in Hf; lia |].
    simpl in Hk. apply andb_prop in Hk as [Hc Hk].
    rewrite parse_literal_step by auto using literal_not_repeat.
    apply IH; [done | simpl in Hf; lia].
Qed.

Lemma in_ends_Eps (bol : bool) (s : string) (p : pos) :
  In p (ends Eps bol s) <-> p = (bol, s).
Proof. simpl. intuition. Qed.

Lemma in_ends_Bol (bol : bool) (s : string) (p : pos) :
  In p (ends Bol bol s) <-> p = (bol, s) /\ bol = true.
Proof.
  simpl. destruct bol; simpl; [intuition |].
  split; [done | by intros [_ ?]].
Qed.

Lemma in_ends_dash_prefix (tok : string) (q : pos) :
  In q (ends dash_prefix true tok)
  <-> q = (true, tok) \/ (tok = String "-" q.2 /\ q.1 = false).
Proof.
  unfold dash_prefix. rewrite in_ends_Seq. split.
  - intros (q0 & (q1 & ->%in_ends_Eps & [-> _]%in_ends_Bol)%in_ends_Seq & H).
    apply in_ends_Opt in H as [H%in_ends_Chr | ->]; auto.
  - intros H. exists (true, tok). split.
    + apply in_ends_Seq. exists (true, tok).
      by rewrite in_ends_Eps, in_ends_Bol.
    + apply in_ends_Opt. destruct H as [-> | H]; [by right |].
      left. by apply in_ends_Chr.
Qed.

Lemma compile_filter_literal (k : string) :
  all_literal k = true -> compile ("^-?" +:+ k) = Some (filter_regex k).
Proof.
  intros Hk. unfold compile.
  change ("^-?" +:+ k) with (String "^" (String "-" (String "?" k))).
  cbn [String.length].
  change (parse (S (S (S (S (String.length k)))))
            (String "^" (String "-" (String "?" k))) None Eps)
    with (parse (S (S (S (String.length k)))) (String "-" (String "?" k))
            None (Seq Eps Bol)).
  change (parse (S (S (S (String.length k)))) (String "-" (String "?" k))
            None (Seq Eps Bol))
    with (match quantified (Chr "-") (String "?" k) with
          | Some (a, t) => parse (S (S (String.length k))) t None
                             (Seq (Seq Eps Bol) a)
          | None => None
          end).
  unfold quantified. cbn [is_repeat Ascii.eqb Bool.eqb orb].
  rewrite (literal_not_repeat k Hk). cbn [repeat_of Ascii.eqb Bool.eqb andb].
  rewrite parse_literals by (auto; lia). done.
Qed.

Lemma in_ends_filter_regex (k tok : string) (p : pos) :
  In p (ends (filter_regex k) true tok)
  -> tok = k +:+ p.2 \/ tok = "-" +:+ k +:+ p.2.
Proof.
  intros (q & Hq & E & _)%in_ends_lits.
  apply in_ends_dash_prefix in Hq as [-> | [-> _]]; [by left |].
  right. by rewrite E.
Qed.

Lemma match_filter_regex (k tok : string) :
  match_ (filter_regex k) tok = true
  <-> (exists suffix, tok = k +:+ suffix)
      \/ (exists suffix, tok = "-" +:+ k +:+ suffix).
Proof.
  rewrite match_true. split.
  - intros (p & [H | H]%in_ends_filter_regex); eauto.
  - intros [[suffix ->] | [suffix ->]].
    + exists (match k with EmptyString => true | _ => false end, suffix).
      apply in_ends_lits. exists (true, k +:+ suffix). split; [| done].
      apply in_ends_dash_prefix. by left.
    + exists (false, suffix).
      apply in_ends_lits. exists (false, k +:+ suffix).
      split; [| by destruct k].
      apply in_ends_dash_prefix. by right.
Qed.

Lemma all_pseudo_filter_compiled :
  compile ShowList.all_pseudo_pattern = Some ShowList.all_pseudo_filter.
Proof. reflexivity. Qed.

Lemma ext_compiled : compile Show.ext_pattern = Some Show.ext.
Proof. reflexivity. Qed.

Lemma all_pseudo_filter_lits :
  ShowList.all_pseudo_filter = Seq (filter_regex "all") Eol.
Proof. reflexivity. Qed.

(** The tokens the pattern of the "all" pseudo-filter accepts. *)
Lemma match_all_pseudo_filter (tok : string) :
  match_ ShowList.all_pseudo_filter tok = true
  <-> tok = "all" \/ tok = "-all"
      \/ tok = "all" +:+ String LF "" \/ tok = "-all" +:+ String LF "".
Proof.
  rewrite all_pseudo_filter_lits, match_true. split.
  - intros (p & (q & Hq & Hp)%in_ends_Seq).
    apply in_ends_Eol in Hp as [_ Hq2].
    apply in_ends_filter_regex in Hq.
    destruct Hq as [-> | ->], Hq2 as [-> | ->]; auto.
  - intros [-> | [-> | [-> | ->]]]; eexists; vm_compute; left; reflexivity.
Qed.

Lemma in_ends_Alt (a b : regex) (bol : bool) (s : string) (p : pos) :
  In p (ends (Alt a b) bol s) <-> In p (ends a bol s) \/ In p (ends b bol s).
Proof. simpl. apply in_app_iff. Qed.

Lemma mem_char_app (c : ascii) (a b : string) :
  mem_char c (a +:+ b) = mem_char c a || mem_char c b.
Proof.
  induction a as [|d a IH]; [done |].
  by rewrite app_cons, !mem_char_eqb, IH, orb_assoc.
Qed.

Lemma in_iterate_Any (n : nat) (bol : bool) (s : string) (p : pos) :
  String.length s <= n ->
  In p (iterate (ends Any) n bol s)
  <-> exists pre, s = pre +:+ p.2 /\ mem_char LF pre = false
                  /\ p.1 = match pre with EmptyString => bol | _ => false end.
Proof.
  assert (Hhere : forall (bol : bool) (s : string) (p : pos),
            p = (bol, s) ->
            exists pre, s = pre +:+ p.2 /\ mem_char LF pre = false
              /\ p.1 = match pre with EmptyString => bol | _ => false end)
    by (intros b s0 p0 ->; by exists "").
  assert (Hnil : forall (bol : bool) (s : string) (p : pos),
            s = "" +:+ p.2 -> p.1 = bol -> (bol, s) = p)
    by (intros b s0 [pb ps] E Eb; rewrite app_nil_l in E; simpl in *;
        by subst).
  revert bol s. induction n as [|n IH]; intros bol s Hn.
  - destruct s; [| simpl in Hn; lia]. simpl. split.
    + intros [<- | []]. by apply Hhere.
    + intros (pre & E & _ & Eb).
      destruct pre; [| by rewrite app_cons in E]. left. by apply Hnil.
  - cbn [iterate]. rewrite in_app_iff. destruct s as [|d t].
    + simpl. split.
      * intros [[] | [<- | []]]. by apply Hhere.
      * intros (pre & E & _ & Eb).
        destruct pre; [| by rewrite app_cons in E].
        right. left. by apply Hnil.
    + cbn [ends]. destruct (Ascii.eqb d LF) eqn:Ed.
      * apply Ascii.eqb_eq in Ed as ->. cbn [flat_map]. split.
        -- intros [[] | [<- | []]]. by apply Hhere.
        -- intros (pre & E & Hm & Eb). destruct pre as [|c pre].
           ++ right. left. by apply Hnil.
           ++ rewrite app_cons in E. injection E as <- _.
              by rewrite mem_char_eqb, Ascii.eqb_refl in Hm.
      * cbn [flat_map fst snd String.length]. rewrite List.app_nil_r.
        replace (Nat.ltb (String.length t) (S (String.length t))) with true
          by (symmetry; apply Nat.ltb_lt; lia).
        rewrite IH by (simpl in Hn; lia). split.
        -- intros [(pre & -> & Hm & Eb) | [<- | []]].
           ++ exists (String d pre). rewrite app_cons. split; [done |].
              split; [by rewrite mem_char_eqb, Ascii.eqb_sym, Ed |].
              rewrite Eb. by destruct pre.
           ++ by apply Hhere.
        -- intros (pre & E & Hm & Eb). destruct pre as [|c pre].
           ++ right. left. by apply Hnil.
           ++ left. rewrite app_cons in E. injection E as -> ->.
              rewrite mem_char_eqb in Hm. apply orb_false_elim in Hm as [_ Hm].
              exists pre. by destruct pre.
Qed.

Lemma in_ends_Star_Any (bol : bool) (s : string) (p : pos) :
  In p (ends (Star Any) bol s)
  <-> exists pre, s = pre +:+ p.2 /\ mem_char LF pre = false
                  /\ p.1 = match pre with EmptyString => bol | _ => false end.
Proof. apply in_iterate_Any. done. Qed.

Lemma ext_shape :
  Show.ext = Seq (Seq (Seq Eps (Star Any)) ext_alternatives) Eol.
Proof. reflexivity. Qed.

Lemma in_ends_word (k : string) (bol : bool) (s : string) (p : pos) :
  In p (ends (lits Eps k) bol s) <-> s = k +:+ p.2
    /\ p.1 = match k with EmptyString => bol | _ => false end.
Proof.
  rewrite in_ends_lits. split.
  - by intros (q & ->%in_ends_Eps & E1 & E2).
  - intros [E1 E2]. exists (bol, s). by rewrite in_ends_Eps.
Qed.

Lemma in_ends_ext_alternatives (bol : bool) (s : string) (p : pos) :
  In p (ends ext_alternatives bol s)
  <-> exists tok, In tok extensions /\ s = tok +:+ p.2 /\ p.1 = false.
Proof.
  unfold ext_alternatives. rewrite !in_ends_Alt, !in_ends_word. split.
  - intros [[[[[[-> ->] | [-> ->]] | [-> ->]] | [-> ->]] | [-> ->]] | [-> ->]];
      eexists; (split; [| split; reflexivity]); simpl; auto 10.
  - intros (tok & Hin & -> & ->). simpl in Hin.
    destruct Hin as [<- | [<- | [<- | [<- | [<- | [<- | []]]]]]]; auto 10.
Qed.

(** What the episode pattern accepts: one of the six extensions, after
    bytes none of which is a newline, and before the end of the text or
    one last newline. *)
Lemma match_ext (s : string) :
  match_ Show.ext s = true
  <-> exists pre tok rest,
        s = pre +:+ tok +:+ rest /\ mem_char LF pre = false
        /\ In tok extensions /\ (rest = "" \/ rest = String LF "").
Proof.
  rewrite ext_shape, match_true. split.
  - intros (p & (q & Hq & [-> Heol]%in_ends_Eol)%in_ends_Seq).
    apply in_ends_Seq in Hq as (q1 & Hq1 & Hq).
    apply in_ends_ext_alternatives in Hq as (tok & Hin & E & _).
    apply in_ends_Seq in Hq1 as (q0 & ->%in_ends_Eps & Hq1).
    cbn [fst snd] in Hq1.
    apply in_ends_Star_Any in Hq1 as (pre & -> & Hm & _).
    exists pre, tok, q.2. by rewrite E.
  - intros (pre & tok & rest & -> & Hm & Hin & Hrest).
    exists (false, rest). apply in_ends_Seq. exists (false, rest).
    split; [| by apply in_ends_Eol].
    apply in_ends_Seq.
    exists (match pre with EmptyString => true | _ => false end, tok +:+ rest).
    split.
    + apply in_ends_Seq. exists (true, pre +:+ tok +:+ rest).
      split; [by apply in_ends_Eps |].
      apply in_ends_Star_Any. by exists pre.
    + apply in_ends_ext_alternatives. by exists tok.
Qed.

(** For a path without a newline byte the pattern is a suffix test. *)
Lemma match_ext_suffix (s : string) :
  mem_char LF s = false ->
  match_ Show.ext s = true
  <-> exists pre tok, s = pre +:+ tok /\ In tok extensions.
Proof.
  intros Hs. rewrite match_ext. split.
  - intros (pre & tok & rest & -> & Hm & Hin & [-> | ->]).
    + exists pre, tok. by rewrite app_nil_r.
    + rewrite !mem_char_app in Hs. simpl in Hs.
      by rewrite !orb_true_r in Hs.
  - intros (pre & tok & -> & Hin). exists pre, tok, "".
    rewrite app_nil_r. split; [done |].
    rewrite mem_char_app in Hs. apply orb_false_elim in Hs as [Hs _]. auto.
Qed.

End ReFacts.

(** ** The registry *)

Module ShowListFacts.
Import ShowList.

Lemma same_but_enabled_refl (st : t) : same_but_enabled st st.
Proof.
  split; [done |]. split; [done |]. intros o. by destruct (store st !! o).
Qed.

Lemma same_but_enabled_trans (st1 st2 st3 : t) :
  same_but_enabled st1 st2 -> same_but_enabled st2 st3 ->
  same_but_enabled st1 st3.
Proof.
  intros (Hs & Hf & Ho) (Hs' & Hf' & Ho').
  split; [congruence |]. split; [congruence |]. intros o.
  specialize (Ho o). specialize (Ho' o).
  destruct (store st1 !! o), (store st2 !! o), (store st3 !! o); try done.
  destruct Ho as (? & ? & ?), Ho' as (? & ? & ?). repeat split; congruence.
Qed.

Lemma set_enabled_same (e : bool) (o : loc) (st : t) :
  same_but_enabled st (set_enabled e o st).2.
Proof.
  split; [done |]. split; [done |]. intros o'. simpl.
  destruct (decide (o = o')) as [<- | Hne].
  - rewrite lookup_alter_eq. by destruct (store st !! o).
  - rewrite lookup_alter_ne by done. by destruct (store st !! o').
Qed.

Lemma for_each_same {A : Type} (body : A -> M unit) (l : list A) :
  (forall a st, same_but_enabled st (body a st).2) ->
  forall st, same_but_enabled st (for_each body l st).2.
Proof.
  intros Hbody. induction l as [|a l IH]; intros st.
  - apply same_but_enabled_refl.
  - simpl. unfold bind. specialize (Hbody a st).
    destruct (body a st) as [[[] | e] st1]; [| done].
    eapply same_but_enabled_trans; [exact Hbody | apply IH].
Qed.

Lemma run_first_match_same (recur : string -> M unit) (token : string)
  (enable : bool) (values : list entry) :
  (forall s st, same_but_enabled st (recur s st).2) ->
  forall st, same_but_enabled st (run_first_match recur token enable values st).2.
Proof.
  intros Hrec. induction values as [|f rest IH]; intros st.
  - apply same_but_enabled_refl.
  - simpl. destruct (entry_match f token); [| apply IH].
    destruct f as [f | g]; simpl.
    + apply for_each_same. intros. apply set_enabled_same.
    + apply Hrec.
Qed.

Lemma filter_token_same (recur : string -> M unit) (token : string) :
  (forall s st, same_but_enabled st (recur s st).2) ->
  forall st, same_but_enabled st (filter_token recur token st).2.
Proof.
  intros Hrec st. unfold filter_token.
  destruct (Re.match_ all_pseudo_filter token).
  - apply for_each_same. intros. apply set_enabled_same.
  - by apply run_first_match_same.
Qed.

Lemma filter_unfold (depth : nat) (filter_string : string) :
  filter depth filter_string
  = for_each (filter_token (nested_filter depth)) (split " " filter_string).
Proof. by destruct depth. Qed.

Lemma filter_same (depth : nat) (filter_string : string) (st : t) :
  same_but_enabled st (filter depth filter_string st).2.
Proof.
  revert filter_string st. induction depth as [|d IH]; intros s st.
  - rewrite filter_unfold. apply for_each_same. intros tok st'.
    apply filter_token_same. intros. apply same_but_enabled_refl.
  - rewrite filter_unfold. apply for_each_same. intros tok st'.
    apply filter_token_same. exact IH.
Qed.

Lemma bind_ret_unit (m : M unit) (st : t) :
  (let! _ := m in ret tt) st = m st.
Proof. unfold bind, ret. by destruct (m st) as [[[] | e] st']. Qed.

Lemma filter_one_token (depth : nat) (token : string) (st : t) :
  mem_char " " token = false ->
  filter depth token st = filter_token (nested_filter depth) token st.
Proof.
  intros H. rewrite filter_unfold, (split_no_sep _ _ H). simpl.
  apply bind_ret_unit.
Qed.

Lemma run_first_match_first (recur : string -> M unit) (token : string)
  (enable : bool) (pre post : list entry) (e : entry) :
  Forall (fun x => entry_match x token = false) pre ->
  entry_match e token = true ->
  run_first_match recur token enable (pre ++ e :: post)
  = entry_run recur e enable.
Proof.
  intros Hpre He. induction Hpre as [|x pre Hx _ IH]; simpl.
  - by rewrite He.
  - by rewrite Hx.
Qed.

Lemma run_first_match_none (recur : string -> M unit) (token : string)
  (enable : bool) (values : list entry) :
  Forall (fun x => entry_match x token = false) values ->
  run_first_match recur token enable values = ret tt.
Proof.
  intros H. induction H as [|x l Hx _ IH]; simpl; [done | by rewrite Hx].
Qed.

Lemma for_each_set_enabled (e : bool) (l : list loc) (st : t) :
  exists st',
    for_each (set_enabled e) l st = (Ok tt, st')
    /\ shows st' = shows st /\ filters st' = filters st
    /\ forall o, store st' !! o
                 = if bool_decide (o ∈ l)
                   then Show.with_enabled e <$> store st !! o
                   else store st !! o.
Proof.
  revert st. induction l as [|a l IH]; intros st.
  - exists st. repeat split; try done.
  - simpl. unfold bind. simpl.
    destruct (IH (set_enabled e a st).2) as (st' & Hrun & Hs & Hf & Ho).
    exists st'. simpl in *. split; [done |]. split; [done |]. split; [done |].
    intros o. rewrite Ho.
    destruct (decide (o = a)) as [-> | Hne].
    + rewrite lookup_alter_eq.
      rewrite (bool_decide_eq_true_2 (a ∈ a :: l))
        by (rewrite elem_of_cons; by left).
      case_bool_decide; [| done]. by destruct (store st !! a).
    + rewrite lookup_alter_ne by done.
      rewrite (bool_decide_ext (o ∈ a :: l) (o ∈ l)); [done |].
      rewrite elem_of_cons. split; [by intros [? | ?] | by right].
Qed.

(** Outside the tokens the "all" pattern accepts, a token runs the first
    value of the filters dictionary that matches it, with the token's
    polarity, and nothing else. *)
Lemma filter_first_match (depth : nat) (token : string) (st : t)
  (pre post : list entry) (e : entry) :
  mem_char " " token = false ->
  Re.match_ all_pseudo_filter token = false ->
  (filters st).*2 = pre ++ e :: post ->
  Forall (fun x => entry_match x token = false) pre ->
  entry_match e token = true ->
  filter depth token st
  = entry_run (nested_filter depth) e (is_enabled_filter token) st.
Proof.
  intros Hsp Hall Hfs Hpre He. rewrite filter_one_token by done.
  unfold filter_token. rewrite Hall, Hfs.
  by rewrite run_first_match_first.
Qed.

(** A token that no value matches is passed over. *)
Lemma filter_no_match (depth : nat) (token : string) (st : t) :
  mem_char " " token = false ->
  Re.match_ all_pseudo_filter token = false ->
  Forall (fun x => entry_match x token = false) (filters st).*2 ->
  filter depth token st = (Ok tt, st).
Proof.
  intros Hsp Hall Hno. rewrite filter_one_token by done.
  unfold filter_token. rewrite Hall.
  by rewrite run_first_match_none.
Qed.

(** The tokens ["all"] and ["-all"] set the flag of every registered Show
    and look at no Filter or Group. *)
Lemma filter_all (depth : nat) (st : t) :
  filter depth "all" st = for_each (set_enabled true) (shows st).*2 st
  /\ filter depth "-all" st = for_each (set_enabled false) (shows st).*2 st.
Proof. split; by rewrite filter_one_token. Qed.

(** A Group runs its filter-string whatever polarity it is handed. *)
Lemma group_run_ignores_polarity (recur : string -> M unit) (g : Group.t)
  (enable enable' : bool) :
  entry_run recur (AGroup g) enable = entry_run recur (AGroup g) enable'.
Proof. reflexivity. Qed.

Lemma group_init_filter_string (k s : string) (g : Group.t) :
  Group.init k s = Some g -> Group.filter_string g = s.
Proof.
  unfold Group.init. destruct (Re.compile k); [| done]. by intros [= <-].
Qed.

End ShowListFacts.

(** ** C10: what [filter] leaves alone *)

(** C10.  Whatever the filter-string and the recursion limit, and
    whether the call returns or raises, [filter] leaves the shows
    dictionary, the filters dictionary (keys, each Filter's Shows, each
    Group's filter-string) and the set of Show objects as they were, and
    of each Show the name, the path and the episode list; only enabled
    flags can differ. *)
Theorem filter_changes_enabled_only (depth : nat) (filter_string : string)
  (st : ShowList.t) :
  ShowList.same_but_enabled st
    (ShowList.filter depth filter_string st).2.
Proof. apply ShowListFacts.filter_same. Qed.

(** ** C1: Group expansion *)

(** C1, as the code has it.  A Group registered under key [k] with
    filter-string [s] is run by a one-token filter-string when the token
    is not taken by the "all" pattern and the Group is the first value of
    the filters dictionary, in iteration order, whose pattern matches the
    token; the call then is the call of [filter] on [s], one level
    deeper, whatever the polarity of the token. *)
Theorem group_expansion (depth : nat) (st : ShowList.t) (k s : string)
  (g : Group.t) (token : string) (pre post : list (string * entry)) :
  Group.init k s = Some g ->
  ShowList.filters st = pre ++ (k, AGroup g) :: post ->
  Forall (fun x => entry_match x.2 token = false) pre ->
  Group.match_ g token = true ->
  Re.match_ ShowList.all_pseudo_filter token = false ->
  mem_char " " token = false ->
  ShowList.filter (S depth) token st = ShowList.filter depth s st.
Proof.
  intros Hg Hfs Hpre Hm Hall Hsp.
  rewrite (ShowListFacts.filter_first_match (S depth) token st
             pre.*2 post.*2 (AGroup g)); try done.
  - simpl. unfold ShowList.Group_run.
    by rewrite (ShowListFacts.group_init_filter_string _ _ _ Hg).
  - rewrite Hfs, fmap_app. done.
  - by apply Forall_fmap.
Qed.

Lemma group_expansion_witness :
  Group.init "fav" "-all a" = Some Examples.fav_group
  /\ ShowList.filter 1 "fav" Examples.registry
     = ShowList.filter 0 "-all a" Examples.registry.
Proof.
  split; [reflexivity |].
  apply (group_expansion 0 Examples.registry "fav" "-all a"
           Examples.fav_group "fav"
           [("a", AFilter Examples.filter_a); ("b", AFilter Examples.filter_b)]
           []);
    [reflexivity | reflexivity | repeat constructor | reflexivity
    | reflexivity | reflexivity].
Defined.

(** C1 as stated fails in three ways.  In [Examples.shadowed] the token
    fav matches the Group fav, but the Filter f of Show B comes first and
    matches too: Show B ends enabled and Show A is not touched, where the
    Group's own filter-string leaves A enabled and B disabled.  The token
    -fav does not match the Group fav at all, whose pattern has no
    optional minus sign: nothing is run.  And a Group under the key all
    is never asked about the token all, which the pseudo-filter takes. *)
Lemma group_expansion_counterexample :
  (In ("fav", AGroup Examples.fav_group) (ShowList.filters Examples.shadowed)
   /\ Group.init "fav" "-all a" = Some Examples.fav_group
   /\ Filter.init "f" [1] = Some Examples.filter_f
   /\ Group.match_ Examples.fav_group "fav" = true
   /\ forall depth : nat,
        ShowList.is_enabled 1
          (ShowList.filter (S depth) "fav" Examples.shadowed).2 = true
        /\ ShowList.is_enabled 1
             (ShowList.filter depth "-all a" Examples.shadowed).2 = false)
  /\ (Group.match_ Examples.fav_group "-fav" = false
      /\ ShowList.is_enabled 0 Examples.registry = false
      /\ forall depth : nat,
           ShowList.filter depth "-fav" Examples.registry
           = (Ok tt, Examples.registry)
           /\ ShowList.is_enabled 0
                (ShowList.filter depth "-all a" Examples.registry).2 = true)
  /\ (Group.init "all" "-all" = Some Examples.all_group
      /\ Group.match_ Examples.all_group "all" = true
      /\ forall depth : nat,
           ShowList.is_enabled 0
             (ShowList.filter (S depth) "all" Examples.group_named_all).2
           = true
           /\ ShowList.is_enabled 0
                (ShowList.filter depth "-all" Examples.group_named_all).2
              = false).
Proof.
  split; [| split].
  - split; [do 2 right; by left |]. do 3 (split; [reflexivity |]).
    intros depth. split; [reflexivity |]. by destruct depth.
  - split; [reflexivity |]. split; [reflexivity |].
    intros depth. by destruct depth.
  - split; [reflexivity |]. split; [reflexivity |].
    intros depth. split; [reflexivity |]. by destruct depth.
Qed.

(** ** C2 and C3: the "all" pseudo-filter and the first match *)

(** C2, at the token the code gets wrong.  The pattern of the pseudo-filter
    ends in a dollar sign, which also matches in front of a newline that
    ends the token: a token made of all and a newline, or of -all and a
    newline, is not one of the two exact tokens and is still given the
    special case, setting the flag of every registered Show.  (On the two
    exact tokens the special case is [ShowListFacts.filter_all], and the
    tokens the pattern accepts are the four of
    [ReFacts.match_all_pseudo_filter].) *)
Theorem all_token_with_newline :
  "all" +:+ String LF "" <> "all" /\ "all" +:+ String LF "" <> "-all"
  /\ "-all" +:+ String LF "" <> "all" /\ "-all" +:+ String LF "" <> "-all"
  /\ forall (depth : nat) (st : ShowList.t),
       ShowList.filter depth ("all" +:+ String LF "") st
       = ShowList.for_each (ShowList.set_enabled true)
           (ShowList.shows st).*2 st
       /\ ShowList.filter depth ("-all" +:+ String LF "") st
          = ShowList.for_each (ShowList.set_enabled false)
              (ShowList.shows st).*2 st.
Proof.
  do 4 (split; [done |]). intros depth st.
  split; by rewrite ShowListFacts.filter_one_token.
Qed.

(** C3, at the token the code gets wrong.  No value of the filters
    dictionary of [Examples.only_b] matches the token made of all and a
    newline, which is not one of the two exact tokens; the call still
    changes the flags of Shows A and B.  In [Examples.registry] the
    Filter a matches that token and refers to Show A alone; the flag of
    Show B changes too.  (For every token the pattern of the
    pseudo-filter rejects, the first match alone is run,
    [ShowListFacts.filter_first_match], and a token without a match
    changes nothing, [ShowListFacts.filter_no_match].) *)
Theorem newline_token_skips_filters :
  let token := "all" +:+ String LF "" in
  token <> "all" /\ token <> "-all"
  /\ Filter.init "a" [0] = Some Examples.filter_a
  /\ Filter.init "b" [1] = Some Examples.filter_b
  /\ Filter.match_ Examples.filter_a token = true
  /\ Filter.match_ Examples.filter_b token = false
  /\ ShowList.is_enabled 0 Examples.only_b = false
  /\ ShowList.is_enabled 1 Examples.only_b = false
  /\ ShowList.is_enabled 1 Examples.registry = false
  /\ forall depth : nat,
       ShowList.is_enabled 0 (ShowList.filter depth token Examples.only_b).2
       = true
       /\ ShowList.is_enabled 1
            (ShowList.filter depth token Examples.only_b).2 = true
       /\ ShowList.is_enabled 1
            (ShowList.filter depth token Examples.registry).2 = true.
Proof.
  cbv zeta. do 2 (split; [done |]). do 7 (split; [reflexivity |]).
  intros depth. by destruct depth.
Qed.

(** ** Show: the scanner and the cache *)

Module ShowFacts.

Lemma has_suffix_spec (suffix s : string) :
  has_suffix suffix s = true <-> exists pre, s = pre +:+ suffix.
Proof.
  induction s as [|c t IH].
  - simpl. rewrite orb_false_r, String.eqb_eq. split.
    + intros ->. by exists "".
    + intros [[|d pre] E]; [done | by rewrite app_cons in E].
  - cbn [has_suffix]. rewrite orb_true_iff, String.eqb_eq, IH. split.
    + intros [-> | [pre ->]]; [by exists "" | by exists (String c pre)].
    + intros [[|d pre] E]; [left; by rewrite app_nil_l in E |].
      right. rewrite app_cons in E. injection E as _ ->. by exists pre.
Qed.

Lemma ends_with_extension_spec (path : string) :
  ends_with_extension path = true
  <-> exists pre tok, path = pre +:+ tok /\ In tok Re.extensions.
Proof.
  unfold ends_with_extension. rewrite existsb_exists. split.
  - intros (tok & Hin & [pre ->]%has_suffix_spec). by exists pre, tok.
  - intros (pre & tok & -> & Hin). exists tok. split; [done |].
    apply has_suffix_spec. by exists pre.
Qed.

(** On a path without a newline byte, the test of the scanner is the
    suffix test. *)
Lemma ext_match_is_suffix_test (path : string) :
  mem_char LF path = false ->
  Re.match_ Show.ext path = ends_with_extension path.
Proof.
  intros H. apply eq_true_iff_eq.
  by rewrite (ReFacts.match_ext_suffix _ H), ends_with_extension_spec.
Qed.

Lemma scan_nodes_files (os : OS) (recur : string -> result (list string))
  (path : string) (nodes files : list string) :
  Forall (fun node => isfile os (path_join path node) = true) nodes ->
  Show.scan_nodes os recur path nodes files
  = Ok (files ++ List.filter (Re.match_ Show.ext) (map (path_join path) nodes)).
Proof.
  intros H. revert files. induction H as [|node nodes Hn _ IH]; intros files.
  - simpl. by rewrite List.app_nil_r.
  - cbn [Show.scan_nodes map List.filter]. rewrite Hn, IH.
    destruct (Re.match_ Show.ext (path_join path node)); [| done].
    by rewrite <- List.app_assoc.
Qed.

(** A directory of regular files: the scan keeps, in listing order, the
    paths the pattern accepts. *)
Lemma episodes_for_flat_directory (os : OS) (depth : nat) (path : string)
  (nodes : list string) :
  listdir os path = Some nodes ->
  Forall (fun node => isfile os (path_join path node) = true) nodes ->
  Show.episodes_for_path os (S depth) path
  = Ok (List.filter (Re.match_ Show.ext) (map (path_join path) nodes)).
Proof.
  intros Hl Hf. simpl. rewrite Hl. by rewrite scan_nodes_files.
Qed.

(** A call that finds a non-empty cached list returns it and looks at
    nothing else. *)
Lemma episodes_cached (os : OS) (depth : nat) (self : Show.t) :
  Show.eplist self <> [] ->
  Show.episodes os depth self = (Ok (Show.eplist self), self).
Proof. unfold Show.episodes. by destruct (Show.eplist self). Qed.

(** Once a call has returned a non-empty list, every later call returns
    that list, whatever the file system has become. *)
Lemma episodes_stable_when_nonempty (os os' : OS) (depth depth' : nat)
  (self self' : Show.t) (l : list string) :
  Show.episodes os depth self = (Ok l, self') -> l <> [] ->
  Show.episodes os' depth' self' = (Ok l, self').
Proof.
  unfold Show.episodes at 1. destruct (Show.eplist self) as [|e es] eqn:E.
  - destruct (Show.episodes_for_path os depth (Show.path self)); [| done].
    intros [= <- <-] Hl. by rewrite episodes_cached.
  - intros [= <- <-] _. rewrite episodes_cached; by rewrite E.
Qed.

(** An empty scan result leaves the Show as it was: it is not told
    apart from a Show that has not been scanned. *)
Lemma episodes_empty_scan_not_cached (os : OS) (depth : nat) (self : Show.t) :
  Show.eplist self = [] ->
  Show.episodes_for_path os depth (Show.path self) = Ok [] ->
  Show.episodes os depth self = (Ok [], self).
Proof.
  intros He Hs. unfold Show.episodes. rewrite He, Hs.
  destruct self as [n l p e]. simpl in He. by subst.
Qed.

End ShowFacts.

(** ** C7: the file-name test of the scanner *)

(** C7, at the paths the code gets wrong.  The dot of the pattern does
    not match a newline and its dollar sign matches in front of a last
    newline.  In a directory with the regular files clip.mp4, weirdavi,
    notes.txt, a file whose name has a newline in the middle and ends in
    avi, and a file whose name is tail.avi followed by a newline, the scan
    returns clip.mp4, weirdavi and the last one: it leaves out a path that
    ends with an extension and includes one that does not.  (For paths
    without a newline the test is the suffix test,
    [ShowFacts.ext_match_is_suffix_test].) *)
Theorem scanner_newline_paths :
  Show.episodes_for_path ScanExamples.media_os 1 "./S"
  = Ok ["./S/clip.mp4"; "./S/weirdavi"; "./S/" +:+ ScanExamples.tail_newline]
  /\ isfile ScanExamples.media_os ("./S/" +:+ ScanExamples.two_lines) = true
  /\ ends_with_extension ("./S/" +:+ ScanExamples.two_lines) = true
  /\ Re.match_ Show.ext ("./S/" +:+ ScanExamples.two_lines) = false
  /\ isfile ScanExamples.media_os ("./S/" +:+ ScanExamples.tail_newline) = true
  /\ ends_with_extension ("./S/" +:+ ScanExamples.tail_newline) = false
  /\ Re.match_ Show.ext ("./S/" +:+ ScanExamples.tail_newline) = true.
Proof. repeat split; vm_compute; reflexivity. Qed.

(** ** C9: the cache of [episodes] *)

(** C9, at the Show the code gets wrong.  The cache is tested with
    [not self.eplist], which is also true of an empty scan result: a Show
    whose directory holds no media file is left by [episodes] as it was,
    and the next call scans again; when a file has been added in between
    it returns another list.  (So it is for every empty scan,
    [ShowFacts.episodes_empty_scan_not_cached]; a non-empty result is
    cached for good, [ShowFacts.episodes_stable_when_nonempty].) *)
Theorem episodes_rescans_after_empty_scan :
  Show.episodes ScanExamples.empty_os 1 ScanExamples.show_S
  = (Ok [], ScanExamples.show_S)
  /\ Show.episodes ScanExamples.later_os 1 ScanExamples.show_S
     = (Ok ["./S/x.avi"], Show.with_eplist ["./S/x.avi"] ScanExamples.show_S).
Proof. split; vm_compute; reflexivity. Qed.

(** ** C5: random sampling *)

Module ShuffleFacts.

Lemma swap_perm {A : Type} (x : list A) (i j : nat) : swap x i j ≡ₚ x.
Proof.
  unfold swap. destruct (x !! i) as [a|] eqn:Ei; [| done].
  destruct (x !! j) as [b|] eqn:Ej; [| done].
  by apply Permutation_insert_swap.
Qed.

Lemma shuffle_from_perm {A : Type} (rnd : nat -> nat) (i : nat) (x : list A) :
  shuffle_from rnd i x ≡ₚ x.
Proof.
  revert x. induction i as [|i IH]; intros x; [done |].
  simpl. rewrite IH. apply swap_perm.
Qed.

(** [random.shuffle] rearranges the list and does nothing else. *)
Lemma shuffle_perm {A : Type} (rnd : nat -> nat) (x : list A) :
  shuffle rnd x ≡ₚ x.
Proof. apply shuffle_from_perm. Qed.

Lemma slice_to_nonneg {A : Type} (count : Z) (x : list A) :
  (0 <= count)%Z -> slice_to count x = take (Z.to_nat count) x.
Proof.
  intros H. unfold slice_to.
  by destruct (Z.ltb_spec count 0); [lia |].
Qed.

(** The first [n] entries of a rearrangement of [pool]. *)
Lemma take_of_perm {A : Type} (n : nat) (pool l : list A) :
  l ≡ₚ pool ->
  length (take n l) = n `min` length pool
  /\ (exists rest, take n l ++ rest ≡ₚ pool)
  /\ (NoDup pool -> NoDup (take n l))
  /\ (length pool <= n -> take n l ≡ₚ pool).
Proof.
  intros Hp. split; [by rewrite length_take, (Permutation_length Hp) |].
  split; [exists (drop n l); by rewrite take_drop |]. split.
  - intros Hnd. rewrite <- Hp, <- (take_drop n l) in Hnd.
    by apply NoDup_app in Hnd as [? _].
  - intros Hle. rewrite take_ge; [done |]. by rewrite (Permutation_length Hp).
Qed.

End ShuffleFacts.

Module PoolFacts.
Import ShowList.

Lemma episodes_of_cached (os : OS) (depth : nat) (o : loc) (sh : Show.t)
  (st : t) :
  store st !! o = Some sh -> Show.eplist sh <> [] ->
  episodes os depth o st = (Ok (Show.eplist sh), st).
Proof.
  intros Ho Hne. unfold episodes. rewrite Ho.
  rewrite ShowFacts.episodes_cached by done.
  rewrite insert_id by done. by destruct st.
Qed.

(** When every enabled Show has a non-empty cached list, the pool is read
    from the caches, without a scan and without an error. *)
Lemma all_matching_episodes_cached (os : OS) (depth : nat)
  (values : list loc) (acc : list string) (st : t) :
  Forall (fun o => forall sh, store st !! o = Some sh ->
                   Show.enabled sh = true -> Show.eplist sh <> []) values ->
  all_matching_episodes os depth values acc st
  = (Ok (acc ++ cached_pool st values), st).
Proof.
  intros H. revert acc. induction H as [|o values Ho _ IH]; intros acc.
  - simpl. by rewrite List.app_nil_r.
  - cbn [all_matching_episodes cached_pool flat_map]. unfold is_enabled.
    destruct (store st !! o) as [sh|] eqn:E.
    + destruct (Show.enabled sh) eqn:Een.
      * unfold bind. rewrite (episodes_of_cached os depth o sh st) by auto.
        rewrite IH. by rewrite <- List.app_assoc.
      * apply IH.
    + apply IH.
Qed.

(** With non-empty caches [random_episodes] returns, whatever the file
    system and the recursion limit. *)
Lemma random_episodes_cached (os : OS) (depth : nat) (rnd : nat -> nat)
  (count : Z) (st : t) :
  Forall (fun o => forall sh, store st !! o = Some sh ->
                   Show.enabled sh = true -> Show.eplist sh <> [])
         (shows st).*2 ->
  random_episodes os depth rnd count st
  = (Ok (slice_to count (shuffle rnd (cached_pool st (shows st).*2))), st).
Proof.
  intros H. unfold random_episodes, bind.
  by rewrite (all_matching_episodes_cached os depth _ [] st H).
Qed.

Lemma show_episodes_result (os : OS) (depth : nat) (sh : Show.t) :
  (Show.episodes os depth sh).1 = Pool.episodes_of os depth sh.
Proof.
  unfold Show.episodes, Pool.episodes_of.
  destruct (Show.eplist sh) as [|e es] eqn:E; [| done].
  by destruct (Show.episodes_for_path os depth (Show.path sh)).
Qed.

(** A call of [episodes] that returns does not change what the Show
    answers next, nor its flag. *)
Lemma show_episodes_again (os : OS) (depth : nat) (sh sh' : Show.t)
  (l : list string) :
  Show.episodes os depth sh = (Ok l, sh') ->
  Show.enabled sh' = Show.enabled sh
  /\ Pool.episodes_of os depth sh' = Pool.episodes_of os depth sh.
Proof.
  unfold Show.episodes, Pool.episodes_of.
  destruct (Show.eplist sh) as [|e es] eqn:E.
  - destruct (Show.episodes_for_path os depth (Show.path sh)) as [l' |] eqn:Es;
      [| done].
    intros [= <- <-]. split; [done |]. simpl. rewrite Es. by destruct l'.
  - intros [= <- <-]. by rewrite E.
Qed.

Lemma contribution_after_episodes (os : OS) (depth : nat) (o : loc)
  (sh sh' : Show.t) (l : list string) (st : t) :
  store st !! o = Some sh ->
  Show.episodes os depth sh = (Ok l, sh') ->
  forall o',
    Pool.contribution os depth
      {| shows := shows st; filters := filters st;
         store := <[o := sh']> (store st) |} o'
    = Pool.contribution os depth st o'.
Proof.
  intros Ho Hep o'. unfold Pool.contribution. simpl.
  destruct (decide (o = o')) as [<- | Hne].
  - rewrite lookup_insert_eq, Ho.
    destruct (show_episodes_again os depth sh sh' l Hep) as [-> ->]. done.
  - by rewrite lookup_insert_ne.
Qed.

(** The first loop of [random_episodes] computes the pool. *)
Lemma all_matching_episodes_pool (os : OS) (depth : nat) (values : list loc)
  (acc : list string) (st : t) :
  exists st',
    all_matching_episodes os depth values acc st
    = (match Pool.concat_results (map (Pool.contribution os depth st) values)
       with
       | Ok p => Ok (acc ++ p)
       | Raise e => Raise e
       end, st').
Proof.
  revert acc st. induction values as [|o values IH]; intros acc st.
  - exists st. simpl. by rewrite List.app_nil_r.
  - cbn [all_matching_episodes map Pool.concat_results].
    unfold is_enabled. unfold Pool.contribution at 1.
    destruct (store st !! o) as [sh |] eqn:Ho.
    + destruct (Show.enabled sh) eqn:Een.
      * unfold bind, episodes. rewrite Ho.
        pose proof (show_episodes_result os depth sh) as Hr.
        destruct (Show.episodes os depth sh) as [[l | e] sh'] eqn:Hep;
          simpl in Hr; rewrite <- Hr; [| by eexists].
        destruct (IH (acc ++ l)
                    {| shows := shows st; filters := filters st;
                       store := <[o := sh']> (store st) |}) as [st' Hst'].
        rewrite (map_ext _ _
                   (contribution_after_episodes os depth o sh sh' l st Ho Hep))
          in Hst'.
        exists st'. rewrite Hst'.
        destruct (Pool.concat_results
                    (map (Pool.contribution os depth st) values)); [| done].
        by rewrite <- List.app_assoc.
      * destruct (IH acc st) as [st' Hst']. exists st'. rewrite Hst'.
        by destruct (Pool.concat_results
                       (map (Pool.contribution os depth st) values)).
    + destruct (IH acc st) as [st' Hst']. exists st'. rewrite Hst'.
      by destruct (Pool.concat_results
                     (map (Pool.contribution os depth st) values)).
Qed.

End PoolFacts.

(** C5, as the code has it.  The pool is made of the episodes of every
    enabled Show of the shows dictionary, one Show after the other, and
    of nothing else: for each of them the cached list when it is not
    empty, the scan of its directory otherwise.  When no scan raises,
    [random_episodes] with a non-negative count returns the first
    min(count, pool size) entries of a rearrangement of that pool: no
    entry of the pool is used twice, the returned paths are pairwise
    distinct when those of the pool are, and when the pool has at most
    [count] entries all of it is returned, without an error. *)
Theorem random_episodes_sample (os : OS) (depth : nat) (rnd : nat -> nat)
  (count : Z) (st : ShowList.t) (pool : list string) :
  (0 <= count)%Z ->
  Pool.pool os depth st = Ok pool ->
  exists (r : list string) (st' : ShowList.t),
    ShowList.random_episodes os depth rnd count st = (Ok r, st')
    /\ length r = Z.to_nat count `min` length pool
    /\ (exists rest, r ++ rest ≡ₚ pool)
    /\ (NoDup pool -> NoDup r)
    /\ (length pool <= Z.to_nat count -> r ≡ₚ pool).
Proof.
  intros Hc Hpool.
  destruct (PoolFacts.all_matching_episodes_pool os depth
              (ShowList.shows st).*2 [] st) as [st' Hloop].
  unfold Pool.pool in Hpool. rewrite Hpool in Hloop.
  exists (slice_to count (shuffle rnd pool)), st'. split.
  - unfold ShowList.random_episodes, ShowList.bind. by rewrite Hloop.
  - rewrite ShuffleFacts.slice_to_nonneg by done.
    apply ShuffleFacts.take_of_perm, ShuffleFacts.shuffle_perm.
Qed.

Lemma random_episodes_sample_witness :
  (0 <= 1)%Z
  /\ Pool.pool PoolExamples.nested_os 3 PoolExamples.nested
     = Ok ["./a/b/x.avi"; "./a/b/x.avi"]
  /\ exists (r : list string) (st' : ShowList.t),
       ShowList.random_episodes PoolExamples.nested_os 3 (fun i => i + 1) 1
         PoolExamples.nested = (Ok r, st')
       /\ length r = Z.to_nat 1 `min` 2
       /\ (exists rest, r ++ rest ≡ₚ ["./a/b/x.avi"; "./a/b/x.avi"])
       /\ (NoDup ["./a/b/x.avi"; "./a/b/x.avi"] -> NoDup r)
       /\ (2 <= Z.to_nat 1 -> r ≡ₚ ["./a/b/x.avi"; "./a/b/x.avi"]).
Proof.
  split; [lia |]. split; [reflexivity |].
  apply (random_episodes_sample PoolExamples.nested_os 3 (fun i => i + 1) 1
           PoolExamples.nested ["./a/b/x.avi"; "./a/b/x.avi"]);
    [lia | reflexivity].
Defined.

(** C5 as stated fails in two ways.  The pool can hold a path twice,
    and then so can the result: the Shows a and a/b are both enabled, the
    scan of ./a descends into ./a/b, so the one file is in the pool once
    for each Show, and a sample of two returns it twice.  And when the
    directory of an enabled Show cannot be listed, the call raises
    instead of returning. *)
Lemma random_episodes_repeats :
  (exists st' : ShowList.t,
     ShowList.random_episodes PoolExamples.nested_os 3 (fun _ => 0) 2
       PoolExamples.nested
     = (Ok ["./a/b/x.avi"; "./a/b/x.avi"], st')
     /\ ~ NoDup ["./a/b/x.avi"; "./a/b/x.avi"])
  /\ ShowList.random_episodes ScanExamples.empty_os 3 (fun _ => 0) 2
       PoolExamples.nested
     = (Raise OSError, PoolExamples.nested).
Proof.
  split.
  - eexists. split; [vm_compute; reflexivity |].
    intros H. apply NoDup_cons in H as [H _]. apply H. by left.
  - vm_compute. reflexivity.
Qed.

(** ** C4: how a Filter matches *)

(** C4, as the code has it.  The key of a Filter is compiled as a
    pattern, not quoted.  For a key [k] none of whose bytes has a meaning
    in a pattern, the Filter matches exactly the tokens that start with
    [k] or with a minus sign followed by [k]. *)
Theorem filter_match_literal_key (k : string) (shows : list loc) :
  Re.all_literal k = true ->
  exists f : Filter.t,
    Filter.init k shows = Some f /\ Filter.shows f = shows
    /\ forall token : string,
         Filter.match_ f token = true
         <-> (exists suffix, token = k +:+ suffix)
             \/ (exists suffix, token = "-" +:+ k +:+ suffix).
Proof.
  intros Hk. unfold Filter.init.
  rewrite (ReFacts.compile_filter_literal k Hk).
  eexists. split; [reflexivity |]. split; [reflexivity |].
  intros token. apply ReFacts.match_filter_regex.
Qed.

Lemma filter_match_literal_key_witness :
  Re.all_literal "ff" = true
  /\ exists f : Filter.t,
       Filter.init "ff" [0] = Some f /\ Filter.shows f = [0]
       /\ forall token : string,
            Filter.match_ f token = true
            <-> (exists suffix, token = "ff" +:+ suffix)
                \/ (exists suffix, token = "-" +:+ "ff" +:+ suffix).
Proof.
  split; [reflexivity |].
  apply (filter_match_literal_key "ff" [0]). reflexivity.
Defined.

(** The tokens named by the specification for the key ff. *)
Example filter_ff_tokens :
  exists f : Filter.t,
    Filter.init "ff" [] = Some f
    /\ Filter.match_ f "ff" = true /\ Filter.match_ f "ffxyz" = true
    /\ Filter.match_ f "-ff" = true /\ Filter.match_ f "-ffxyz" = true
    /\ Filter.match_ f "xff" = false.
Proof. eexists. split; [reflexivity |]. repeat split. Qed.

(** C4 as stated fails for keys with pattern syntax in them.  The Filter
    with key a+b does not match the token a+b, nor -a+b, and matches aab;
    the Filter with key b.t matches the token bat, which does not start
    with b.t. *)
Lemma filter_key_is_a_pattern :
  (exists f : Filter.t,
     Filter.init "a+b" [] = Some f
     /\ Filter.match_ f "a+b" = false /\ Filter.match_ f "-a+b" = false
     /\ Filter.match_ f "aab" = true)
  /\ (exists f : Filter.t,
        Filter.init "b.t" [] = Some f /\ Filter.match_ f "bat" = true
        /\ String.prefix "b.t" "bat" = false).
Proof.
  split; eexists; (split; [reflexivity |]); repeat split.
Qed.

(** * Further properties of the code *)

(** ** Filtering *)

Module FilterMore.
Import ShowList ShowListFacts.

Lemma for_each_app {A : Type} (body : A -> M unit) (l1 l2 : list A) (st : t) :
  for_each body (l1 ++ l2) st
  = (let! _ := for_each body l1 in for_each body l2) st.
Proof.
  revert st. induction l1 as [|a l1 IH]; intros st; [done |].
  cbn [for_each app]. unfold bind.
  destruct (body a st) as [[[] | e] st1]; [| done].
  rewrite IH. reflexivity.
Qed.

Lemma filter_app (depth : nat) (s1 s2 : string) (st : t) :
  filter depth (s1 +:+ " " +:+ s2) st
  = (let! _ := filter depth s1 in filter depth s2) st.
Proof.
  change (s1 +:+ " " +:+ s2) with (s1 +:+ String " " s2).
  by rewrite !filter_unfold, split_app_sep, for_each_app.
Qed.

Lemma split_join (sep : ascii) (parts : list string) :
  parts <> [] -> Forall (fun p => mem_char sep p = false) parts ->
  split sep (join (String sep "") parts) = parts.
Proof.
  intros Hne H. induction H as [|p parts Hp Hrest IH]; [done |].
  destruct parts as [|q parts]; [simpl; by apply split_no_sep |].
  change (join (String sep "") (p :: q :: parts))
    with (p +:+ String sep "" +:+ join (String sep "") (q :: parts)).
  change (p +:+ String sep "" +:+ join (String sep "") (q :: parts))
    with (p +:+ String sep (join (String sep "") (q :: parts))).
  rewrite split_app_sep, IH by done. by rewrite (split_no_sep _ _ Hp).
Qed.

Lemma is_enabled_lookup (o : loc) (st : t) (e : bool) (sh : Show.t) :
  store st !! o = Some (Show.with_enabled e sh) -> is_enabled o st = e.
Proof. unfold is_enabled. by intros ->. Qed.

Lemma filter_token_effect (depth : nat) (token : string) (st : t)
  (pre post : list entry) (f : Filter.t) :
  mem_char " " token = false ->
  Re.match_ all_pseudo_filter token = false ->
  (filters st).*2 = pre ++ AFilter f :: post ->
  Forall (fun x => entry_match x token = false) pre ->
  Filter.match_ f token = true ->
  exists st',
    filter depth token st = (Ok tt, st')
    /\ shows st' = shows st /\ filters st' = filters st
    /\ forall o, store st' !! o
                 = if bool_decide (o ∈ Filter.shows f)
                   then Show.with_enabled (is_enabled_filter token)
                          <$> store st !! o
                   else store st !! o.
Proof.
  intros Hsp Hall Hfs Hpre Hm.
  rewrite (filter_first_match depth token st pre post (AFilter f)) by done.
  apply for_each_set_enabled.
Qed.

Lemma filter_minus_all (depth : nat) (st : t) :
  exists st',
    filter depth "-all" st = (Ok tt, st')
    /\ shows st' = shows st /\ filters st' = filters st
    /\ forall o, store st' !! o
                 = if bool_decide (o ∈ (shows st).*2)
                   then Show.with_enabled false <$> store st !! o
                   else store st !! o.
Proof.
  destruct (filter_all depth st) as [_ ->]. apply for_each_set_enabled.
Qed.

Lemma self_reference_raises (depth : nat) (token : string) (st : t)
  (pre post : list entry) (g : Group.t) :
  mem_char " " token = false ->
  Re.match_ all_pseudo_filter token = false ->
  (filters st).*2 = pre ++ AGroup g :: post ->
  Forall (fun x => entry_match x token = false) pre ->
  Group.match_ g token = true ->
  Group.filter_string g = token ->
  filter depth token st = (Raise RuntimeError, st).
Proof.
  intros Hsp Hall Hfs Hpre Hm Hself.
  induction depth as [|d IH];
    rewrite (filter_first_match _ token st pre post (AGroup g)) by done.
  - reflexivity.
  - cbn [entry_run nested_filter]. unfold Group_run. by rewrite Hself.
Qed.

End FilterMore.

(** X1.  A token that is not taken by the "all" pattern runs the first
    value of the filters dictionary, in iteration order, whose pattern
    matches it, with the polarity of the token, and runs nothing else:
    the values after it play no part. *)
Theorem first_match_alone_runs (depth : nat) (token : string)
  (st : ShowList.t) (pre post : list entry) (e : entry) :
  mem_char " " token = false ->
  Re.match_ ShowList.all_pseudo_filter token = false ->
  (ShowList.filters st).*2 = pre ++ e :: post ->
  Forall (fun x => entry_match x token = false) pre ->
  entry_match e token = true ->
  ShowList.filter depth token st
  = ShowList.entry_run (ShowList.nested_filter depth) e
      (is_enabled_filter token) st.
Proof. apply ShowListFacts.filter_first_match. Qed.

Lemma first_match_alone_runs_witness :
  ShowList.filter 0 "-bx" Examples.registry
  = ShowList.entry_run (ShowList.nested_filter 0)
      (AFilter Examples.filter_b) (is_enabled_filter "-bx") Examples.registry.
Proof.
  apply (first_match_alone_runs 0 "-bx" Examples.registry
           [AFilter Examples.filter_a] [AGroup Examples.fav_group]
           (AFilter Examples.filter_b));
    [reflexivity | reflexivity | reflexivity | repeat constructor
    | reflexivity].
Defined.

(** X2.  A token that is not taken by the "all" pattern and that no value
    of the filters dictionary matches is passed over: the call returns
    and the registry is as it was. *)
Theorem unmatched_token_is_ignored (depth : nat) (token : string)
  (st : ShowList.t) :
  mem_char " " token = false ->
  Re.match_ ShowList.all_pseudo_filter token = false ->
  Forall (fun x => entry_match x token = false) (ShowList.filters st).*2 ->
  ShowList.filter depth token st = (Ok tt, st).
Proof. apply ShowListFacts.filter_no_match. Qed.

Lemma unmatched_token_is_ignored_witness :
  ShowList.filter 0 "zzz" Examples.registry = (Ok tt, Examples.registry).
Proof.
  apply (unmatched_token_is_ignored 0 "zzz" Examples.registry);
    [reflexivity | reflexivity | repeat constructor].
Defined.

(** X3.  The pattern of the "all" pseudo-filter accepts four tokens: all,
    -all, and each of the two followed by one newline. *)
Theorem all_pseudo_filter_tokens (token : string) :
  Re.match_ ShowList.all_pseudo_filter token = true
  <-> token = "all" \/ token = "-all"
      \/ token = "all" +:+ String LF "" \/ token = "-all" +:+ String LF "".
Proof. apply ReFacts.match_all_pseudo_filter. Qed.

(** X4.  The filter-strings all and -all return, leave both dictionaries
    as they were, give every Show object that the shows dictionary holds
    the flag true, respectively false, and leave every other object of
    the store as it was. *)
Theorem all_token_sets_every_flag (depth : nat) (st : ShowList.t) :
  exists st_on st_off : ShowList.t,
    ShowList.filter depth "all" st = (Ok tt, st_on)
    /\ ShowList.filter depth "-all" st = (Ok tt, st_off)
    /\ ShowList.shows st_on = ShowList.shows st
    /\ ShowList.filters st_on = ShowList.filters st
    /\ ShowList.shows st_off = ShowList.shows st
    /\ ShowList.filters st_off = ShowList.filters st
    /\ forall o : loc,
         ShowList.store st_on !! o
         = (if bool_decide (o ∈ (ShowList.shows st).*2)
            then Show.with_enabled true <$> ShowList.store st !! o
            else ShowList.store st !! o)
         /\ ShowList.store st_off !! o
            = (if bool_decide (o ∈ (ShowList.shows st).*2)
               then Show.with_enabled false <$> ShowList.store st !! o
               else ShowList.store st !! o).
Proof.
  destruct (ShowListFacts.filter_all depth st) as [Hon Hoff].
  destruct (ShowListFacts.for_each_set_enabled true (ShowList.shows st).*2 st)
    as (st_on & Eon & ? & ? & Hlon).
  destruct (ShowListFacts.for_each_set_enabled false (ShowList.shows st).*2 st)
    as (st_off & Eoff & ? & ? & Hloff).
  exists st_on, st_off. rewrite Hon, Hoff. do 6 (split; [done |]).
  intros o'. by rewrite Hlon, Hloff.
Qed.

(** X5.  Tokens are processed from left to right: the call on two
    filter-strings joined by a space is the call on the first followed,
    when it returns, by the call on the second; when the first raises,
    the second is not run. *)
Theorem filter_concatenation (depth : nat) (s1 s2 : string)
  (st : ShowList.t) :
  ShowList.filter depth (s1 +:+ " " +:+ s2) st
  = match ShowList.filter depth s1 st with
    | (Ok _, st1) => ShowList.filter depth s2 st1
    | (Raise e, st1) => (Raise e, st1)
    end.
Proof. apply FilterMore.filter_app. Qed.

(** X6.  When the last token of a filter-string is -all and the call
    returns, every Show of the shows dictionary is disabled, whatever the
    tokens before did. *)
Theorem trailing_minus_all_disables (depth : nat) (s : string)
  (st st' : ShowList.t) (o : loc) :
  ShowList.filter depth (s +:+ " -all") st = (Ok tt, st') ->
  o ∈ (ShowList.shows st).*2 ->
  ShowList.is_enabled o st' = false.
Proof.
  change (s +:+ " -all") with (s +:+ " " +:+ "-all").
  rewrite FilterMore.filter_app. unfold ShowList.bind.
  pose proof (ShowListFacts.filter_same depth s st) as (Hs & _ & _).
  destruct (ShowList.filter depth s st) as [[[] | e] st1]; [| done].
  destruct (FilterMore.filter_minus_all depth st1) as (st2 & -> & _ & _ & Hl).
  intros [= <-] Ho. simpl in Hs. unfold ShowList.is_enabled.
  rewrite Hl, Hs, bool_decide_eq_true_2 by done.
  by destruct (ShowList.store st1 !! o).
Qed.

Lemma trailing_minus_all_disables_witness :
  ShowList.is_enabled 0
    (ShowList.filter 1 ("a fav" +:+ " -all") Examples.registry).2 = false.
Proof.
  apply (trailing_minus_all_disables 1 "a fav" Examples.registry
           (ShowList.filter 1 ("a fav" +:+ " -all") Examples.registry).2 0);
    [reflexivity | repeat constructor].
Defined.

(** X7.  Order matters the other way round: for a token [k] whose first
    match is a Filter, the filter-string made of -all and [k] leaves the
    Shows of that Filter with the polarity of [k], every other Show of
    the shows dictionary disabled, and every other object as it was. *)
Theorem minus_all_then_filter_selects (depth : nat) (k : string)
  (st : ShowList.t) (pre post : list entry) (f : Filter.t) :
  mem_char " " k = false ->
  Re.match_ ShowList.all_pseudo_filter k = false ->
  (ShowList.filters st).*2 = pre ++ AFilter f :: post ->
  Forall (fun x => entry_match x k = false) pre ->
  Filter.match_ f k = true ->
  exists st' : ShowList.t,
    ShowList.filter depth ("-all " +:+ k) st = (Ok tt, st')
    /\ forall o : loc,
         ShowList.store st' !! o
         = if bool_decide (o ∈ Filter.shows f)
           then Show.with_enabled (is_enabled_filter k)
                  <$> ShowList.store st !! o
           else if bool_decide (o ∈ (ShowList.shows st).*2)
                then Show.with_enabled false <$> ShowList.store st !! o
                else ShowList.store st !! o.
Proof.
  intros Hsp Hall Hfs Hpre Hm.
  change ("-all " +:+ k) with ("-all" +:+ " " +:+ k).
  rewrite FilterMore.filter_app. unfold ShowList.bind.
  destruct (FilterMore.filter_minus_all depth st) as (st1 & -> & _ & Hf1 & Hl1).
  destruct (FilterMore.filter_token_effect depth k st1 pre post f)
    as (st2 & -> & _ & _ & Hl2); try done; [by rewrite Hf1 |].
  exists st2. split; [done |]. intros o. rewrite Hl2, Hl1.
  do 2 case_bool_decide; try done.
  by destruct (ShowList.store st !! o).
Qed.

Lemma minus_all_then_filter_selects_witness :
  exists st' : ShowList.t,
    ShowList.filter 0 ("-all " +:+ "b") Examples.registry = (Ok tt, st')
    /\ forall o : loc,
         ShowList.store st' !! o
         = if bool_decide (o ∈ Filter.shows Examples.filter_b)
           then Show.with_enabled (is_enabled_filter "b")
                  <$> ShowList.store Examples.registry !! o
           else if bool_decide (o ∈ (ShowList.shows Examples.registry).*2)
                then Show.with_enabled false
                       <$> ShowList.store Examples.registry !! o
                else ShowList.store Examples.registry !! o.
Proof.
  apply (minus_all_then_filter_selects 0 "b" Examples.registry
           [AFilter Examples.filter_a] [AGroup Examples.fav_group]
           Examples.filter_b);
    [reflexivity | reflexivity | reflexivity | repeat constructor
    | reflexivity].
Defined.

(** X8.  A token whose first match is a Filter returns, gives the Shows
    the Filter refers to the polarity of the token, and leaves every
    other object and both dictionaries as they were. *)
Theorem filter_token_sets_referenced_shows (depth : nat) (token : string)
  (st : ShowList.t) (pre post : list entry) (f : Filter.t) :
  mem_char " " token = false ->
  Re.match_ ShowList.all_pseudo_filter token = false ->
  (ShowList.filters st).*2 = pre ++ AFilter f :: post ->
  Forall (fun x => entry_match x token = false) pre ->
  Filter.match_ f token = true ->
  exists st' : ShowList.t,
    ShowList.filter depth token st = (Ok tt, st')
    /\ ShowList.shows st' = ShowList.shows st
    /\ ShowList.filters st' = ShowList.filters st
    /\ forall o : loc,
         ShowList.store st' !! o
         = if bool_decide (o ∈ Filter.shows f)
           then Show.with_enabled (is_enabled_filter token)
                  <$> ShowList.store st !! o
           else ShowList.store st !! o.
Proof. apply FilterMore.filter_token_effect. Qed.

Lemma filter_token_sets_referenced_shows_witness :
  exists st' : ShowList.t,
    ShowList.filter 0 "-bx" Examples.registry = (Ok tt, st')
    /\ ShowList.shows st' = ShowList.shows Examples.registry
    /\ ShowList.filters st' = ShowList.filters Examples.registry
    /\ forall o : loc,
         ShowList.store st' !! o
         = if bool_decide (o ∈ Filter.shows Examples.filter_b)
           then Show.with_enabled (is_enabled_filter "-bx")
                  <$> ShowList.store Examples.registry !! o
           else ShowList.store Examples.registry !! o.
Proof.
  apply (filter_token_sets_referenced_shows 0 "-bx" Examples.registry
           [AFilter Examples.filter_a] [AGroup Examples.fav_group]
           Examples.filter_b);
    [reflexivity | reflexivity | reflexivity | repeat constructor
    | reflexivity].
Defined.

(** X9.  There is no guard against a Group that names itself: when the
    filter-string of a Group is a token that the Group is the first to
    match, the call on that token raises RuntimeError at every recursion
    limit, and the registry is as it was. *)
Theorem self_referential_group_raises (depth : nat) (token : string)
  (st : ShowList.t) (pre post : list entry) (g : Group.t) :
  mem_char " " token = false ->
  Re.match_ ShowList.all_pseudo_filter token = false ->
  (ShowList.filters st).*2 = pre ++ AGroup g :: post ->
  Forall (fun x => entry_match x token = false) pre ->
  Group.match_ g token = true ->
  Group.filter_string g = token ->
  ShowList.filter depth token st = (Raise RuntimeError, st).
Proof. apply FilterMore.self_reference_raises. Qed.

Lemma self_referential_group_raises_witness :
  ShowList.filter 7 "loop" MoreExamples.looping
  = (Raise RuntimeError, MoreExamples.looping).
Proof.
  apply (self_referential_group_raises 7 "loop" MoreExamples.looping
           [AFilter Examples.filter_a] [] MoreExamples.loop_group);
    [reflexivity | reflexivity | reflexivity | repeat constructor
    | reflexivity | reflexivity].
Defined.

(** X10.  The script hands [filter] its arguments joined by spaces, and
    [filter] splits at spaces: for a non-empty list of arguments without
    a space in them the tokens processed are the arguments, in order. *)
Theorem joined_arguments_are_the_tokens (depth : nat) (args : list string)
  (st : ShowList.t) :
  args <> [] ->
  Forall (fun a => mem_char " " a = false) args ->
  split " " (join " " args) = args
  /\ ShowList.filter depth (join " " args) st
     = ShowList.for_each
         (ShowList.filter_token (ShowList.nested_filter depth)) args st.
Proof.
  intros Hne Hargs.
  pose proof (FilterMore.split_join " " args Hne Hargs) as Hsplit.
  split; [exact Hsplit |].
  by rewrite ShowListFacts.filter_unfold, Hsplit.
Qed.

Lemma joined_arguments_are_the_tokens_witness :
  split " " (join " " ["-all"; "a"; "fav"]) = ["-all"; "a"; "fav"]
  /\ ShowList.filter 1 (join " " ["-all"; "a"; "fav"]) Examples.registry
     = ShowList.for_each
         (ShowList.filter_token (ShowList.nested_filter 1))
         ["-all"; "a"; "fav"] Examples.registry.
Proof.
  apply (joined_arguments_are_the_tokens 1 ["-all"; "a"; "fav"]
           Examples.registry); [done | repeat constructor].
Defined.

(** ** Patterns and the scanner *)

Module ScanMore.

Lemma compile_literal (k : string) :
  Re.all_literal k = true -> Re.compile k = Some (Re.lits Re.Eps k).
Proof.
  intros Hk. unfold Re.compile.
  by rewrite ReFacts.parse_literals by (auto; lia).
Qed.

Lemma match_word (k token : string) :
  Re.match_ (Re.lits Re.Eps k) token = true
  <-> exists suffix, token = k +:+ suffix.
Proof.
  rewrite ReFacts.match_true. split.
  - intros (p & [E _]%ReFacts.in_ends_word). by exists p.2.
  - intros [suffix ->].
    exists (match k with EmptyString => true | _ => false end, suffix).
    by apply ReFacts.in_ends_word.
Qed.

Lemma filter_kept (os : OS) (l : list string) :
  Forall (kept os) l -> List.filter (Re.match_ Show.ext) l = l.
Proof.
  intros H. induction H as [|x l [_ Hx] _ IH]; [done |].
  simpl. by rewrite Hx, IH.
Qed.

Lemma scan_nodes_sound (os : OS) (recur : string -> result (list string))
  (path : string) (nodes files r : list string) :
  (forall p l, recur p = Ok l -> Forall (kept os) l) ->
  Forall (kept os) files ->
  Show.scan_nodes os recur path nodes files = Ok r ->
  Forall (kept os) r.
Proof.
  intros Hrec. revert files. induction nodes as [|node nodes IH]; intros files Hf.
  - by intros [= <-].
  - cbn [Show.scan_nodes].
    destruct (isfile os (path_join path node)) eqn:Efile.
    + apply IH. destruct (Re.match_ Show.ext (path_join path node)) eqn:Em;
        [| done].
      apply Forall_app. split; [done |]. by repeat constructor.
    + destruct (isdir os (path_join path node)); [| by apply IH].
      destruct (recur (path_join path node)) as [nested | e] eqn:Er; [| done].
      apply IH. apply Forall_app. split; [done |].
      by rewrite (filter_kept os nested) by eauto; eauto.
Qed.

Lemma episodes_for_path_sound (os : OS) (depth : nat) (path : string)
  (files : list string) :
  Show.episodes_for_path os depth path = Ok files -> Forall (kept os) files.
Proof.
  revert path files. induction depth as [|d IH]; intros path files; [done |].
  simpl. destruct (listdir os path) as [nodes |]; [| done].
  apply scan_nodes_sound; [exact IH | constructor].
Qed.

Lemma scan_nodes_complete (os : OS) (recur : string -> result (list string))
  (path : string) (nodes files r : list string) :
  (forall p l, recur p = Ok l -> Forall (kept os) l) ->
  Show.scan_nodes os recur path nodes files = Ok r ->
  (forall x, x ∈ files -> x ∈ r)
  /\ forall node, node ∈ nodes ->
       (isfile os (path_join path node) = true ->
        Re.match_ Show.ext (path_join path node) = true ->
        path_join path node ∈ r)
       /\ (isfile os (path_join path node) = false ->
           isdir os (path_join path node) = true ->
           exists l, recur (path_join path node) = Ok l
                     /\ forall x, x ∈ l -> x ∈ r).
Proof.
  intros Hrec. revert files.
  induction nodes as [|node nodes IH]; intros files.
  - intros [= <-]. split; [done |]. intros node Hin. by apply elem_of_nil in Hin.
  - cbn [Show.scan_nodes]. intros Hscan.
    assert (exists files',
              Show.scan_nodes os recur path nodes files' = Ok r
              /\ (forall x, x ∈ files -> x ∈ files')
              /\ (isfile os (path_join path node) = true ->
                  Re.match_ Show.ext (path_join path node) = true ->
                  path_join path node ∈ files')
              /\ (isfile os (path_join path node) = false ->
                  isdir os (path_join path node) = true ->
                  exists l, recur (path_join path node) = Ok l
                            /\ forall x, x ∈ l -> x ∈ files'))
      as (files' & Hscan' & Hsub & Hfile & Hdir).
    { destruct (isfile os (path_join path node)) eqn:Efile.
      - eexists. split; [exact Hscan |].
        destruct (Re.match_ Show.ext (path_join path node)) eqn:Em.
        + split; [intros x Hx; apply elem_of_app; by left |].
          split; [| done]. intros _ _. apply elem_of_app. right.
          by apply list_elem_of_singleton.
        + done.
      - destruct (isdir os (path_join path node)) eqn:Edir.
        + destruct (recur (path_join path node)) as [nested | e] eqn:Er;
            [| done].
          eexists. split; [exact Hscan |].
          split; [intros x Hx; apply elem_of_app; by left |].
          split; [done |]. intros _ _. exists nested. split; [done |].
          intros x Hx. apply elem_of_app. right.
          by rewrite (filter_kept os nested) by eauto.
        + eexists. split; [exact Hscan |]. done. }
    destruct (IH files' Hscan') as [Hsub' Hnodes].
    split; [intros x Hx; by apply Hsub', Hsub |].
    intros node' [-> | Hin]%elem_of_cons; [| by apply Hnodes].
    split.
    + intros H1 H2. by apply Hsub', Hfile.
    + intros H1 H2. destruct (Hdir H1 H2) as (l & Hl & Hin).
      exists l. split; [done |]. intros x Hx. by apply Hsub', Hin.
Qed.

End ScanMore.

(** X11.  The test of the scanner accepts a path exactly when it is made
    of bytes none of which is a newline, then one of the six extensions,
    then nothing or one last newline. *)
Theorem episode_pattern_accepts (path : string) :
  Re.match_ Show.ext path = true
  <-> exists pre tok rest,
        path = pre +:+ tok +:+ rest /\ mem_char LF pre = false
        /\ In tok Re.extensions /\ (rest = "" \/ rest = String LF "").
Proof. apply ReFacts.match_ext. Qed.

(** X12.  On a path without a newline byte the test of the scanner is a
    suffix test: the path is accepted exactly when it ends with one of
    the six extensions, whatever precedes the extension. *)
Theorem episode_test_is_suffix_test (path : string) :
  mem_char LF path = false ->
  Re.match_ Show.ext path = ends_with_extension path.
Proof. apply ShowFacts.ext_match_is_suffix_test. Qed.

Lemma episode_test_is_suffix_test_witness :
  Re.match_ Show.ext "/a/b/weirdavi" = ends_with_extension "/a/b/weirdavi".
Proof. apply (episode_test_is_suffix_test "/a/b/weirdavi"). reflexivity. Defined.

(** X13.  A Group whose key has no byte with a meaning in a pattern
    matches exactly the tokens that start with the key: unlike a Filter,
    it does not match the key behind a minus sign. *)
Theorem group_match_literal_key (k s : string) :
  Re.all_literal k = true ->
  exists g : Group.t,
    Group.init k s = Some g /\ Group.filter_string g = s
    /\ forall token : string,
         Group.match_ g token = true <-> exists suffix, token = k +:+ suffix.
Proof.
  intros Hk. unfold Group.init. rewrite (ScanMore.compile_literal k Hk).
  eexists. split; [reflexivity |]. split; [reflexivity |].
  intros token. apply ScanMore.match_word.
Qed.

Lemma group_match_literal_key_witness :
  exists g : Group.t,
    Group.init "fav" "-all a" = Some g /\ Group.filter_string g = "-all a"
    /\ forall token : string,
         Group.match_ g token = true
         <-> exists suffix, token = "fav" +:+ suffix.
Proof. apply (group_match_literal_key "fav" "-all a"). reflexivity. Defined.

(** X14.  Every path a scan returns is a regular file that the pattern
    accepts, at whatever depth of the directory it was found. *)
Theorem scan_returns_matching_files (os : OS) (depth : nat) (path : string)
  (files : list string) :
  Show.episodes_for_path os depth path = Ok files ->
  Forall (fun p => isfile os p = true /\ Re.match_ Show.ext p = true) files.
Proof. apply ScanMore.episodes_for_path_sound. Qed.

Lemma scan_returns_matching_files_witness :
  Forall (fun p => isfile PoolExamples.nested_os p = true
                   /\ Re.match_ Show.ext p = true) ["./a/b/x.avi"].
Proof.
  apply (scan_returns_matching_files PoolExamples.nested_os 2 "./a"
           ["./a/b/x.avi"]).
  reflexivity.
Defined.

(** X15.  A scan that returns has missed nothing: the directory could be
    listed, every regular file of the listing that the pattern accepts is
    in the result, and every subdirectory of the listing was scanned
    without an error, all of its result being in the result.  A
    subdirectory that cannot be listed is never skipped. *)
Theorem scan_misses_nothing (os : OS) (depth : nat) (path : string)
  (files : list string) :
  Show.episodes_for_path os (S depth) path = Ok files ->
  exists nodes : list string,
    listdir os path = Some nodes
    /\ forall node : string, node ∈ nodes ->
         (isfile os (path_join path node) = true ->
          Re.match_ Show.ext (path_join path node) = true ->
          path_join path node ∈ files)
         /\ (isfile os (path_join path node) = false ->
             isdir os (path_join path node) = true ->
             exists l : list string,
               Show.episodes_for_path os depth (path_join path node) = Ok l
               /\ forall x, x ∈ l -> x ∈ files).
Proof.
  simpl. destruct (listdir os path) as [nodes |]; [| done].
  intros Hscan. exists nodes. split; [done |].
  eapply ScanMore.scan_nodes_complete; [| exact Hscan].
  apply ScanMore.episodes_for_path_sound.
Qed.

Lemma scan_misses_nothing_witness :
  exists nodes : list string,
    listdir PoolExamples.nested_os "./a" = Some nodes
    /\ forall node : string, node ∈ nodes ->
         (isfile PoolExamples.nested_os (path_join "./a" node) = true ->
          Re.match_ Show.ext (path_join "./a" node) = true ->
          path_join "./a" node ∈ ["./a/b/x.avi"])
         /\ (isfile PoolExamples.nested_os (path_join "./a" node) = false ->
             isdir PoolExamples.nested_os (path_join "./a" node) = true ->
             exists l : list string,
               Show.episodes_for_path PoolExamples.nested_os 1
                 (path_join "./a" node) = Ok l
               /\ forall x, x ∈ l -> x ∈ ["./a/b/x.avi"]).
Proof.
  apply (scan_misses_nothing PoolExamples.nested_os 1 "./a" ["./a/b/x.avi"]).
  reflexivity.
Defined.

(** X16.  In a directory that holds regular files only, the scan returns
    the paths that the pattern accepts in the order of the listing, each
    made of the directory, a slash and the name. *)
Theorem scan_of_flat_directory (os : OS) (depth : nat) (path : string)
  (nodes : list string) :
  listdir os path = Some nodes ->
  Forall (fun node => isfile os (path_join path node) = true) nodes ->
  Show.episodes_for_path os (S depth) path
  = Ok (List.filter (Re.match_ Show.ext) (map (path_join path) nodes)).
Proof. apply ShowFacts.episodes_for_flat_directory. Qed.

Lemma scan_of_flat_directory_witness :
  Show.episodes_for_path ScanExamples.later_os 1 "./S"
  = Ok (List.filter (Re.match_ Show.ext) (map (path_join "./S") ["x.avi"])).
Proof.
  apply (scan_of_flat_directory ScanExamples.later_os 0 "./S" ["x.avi"]);
    [reflexivity | repeat constructor].
Defined.

(** X17.  Once [episodes] has returned a list that is not empty, every
    later call on the Show returns that list and leaves the Show as it
    is, whatever the file system has become and whatever the recursion
    limit. *)
Theorem cached_episodes_are_stable (os os' : OS) (depth depth' : nat)
  (self self' : Show.t) (l : list string) :
  Show.episodes os depth self = (Ok l, self') -> l <> [] ->
  Show.episodes os' depth' self' = (Ok l, self').
Proof. apply ShowFacts.episodes_stable_when_nonempty. Qed.

Lemma cached_episodes_are_stable_witness :
  Show.episodes ScanExamples.empty_os 0
    (Show.with_eplist ["./S/x.avi"] ScanExamples.show_S)
  = (Ok ["./S/x.avi"], Show.with_eplist ["./S/x.avi"] ScanExamples.show_S).
Proof.
  apply (cached_episodes_are_stable ScanExamples.later_os ScanExamples.empty_os
           1 0 ScanExamples.show_S
           (Show.with_eplist ["./S/x.avi"] ScanExamples.show_S)
           ["./S/x.avi"]); [reflexivity | done].
Defined.

(** ** Sampling and listing leave the selection alone *)

Module CachesFacts.
Import ShowList Caches.

Lemma same_refl (st : t) : same_but_caches st st.
Proof.
  split; [done |]. split; [done |]. intros o.
  destruct (store st !! o); [| done]. repeat split. by left.
Qed.

Lemma same_trans (st1 st2 st3 : t) :
  same_but_caches st1 st2 -> same_but_caches st2 st3 ->
  same_but_caches st1 st3.
Proof.
  intros (Hs & Hf & Ho) (Hs' & Hf' & Ho').
  split; [congruence |]. split; [congruence |]. intros o.
  specialize (Ho o). specialize (Ho' o).
  destruct (store st1 !! o), (store st2 !! o), (store st3 !! o); try done.
  destruct Ho as (? & ? & ? & He), Ho' as (? & ? & ? & He').
  repeat split; try congruence.
  destruct He as [He | He]; [| by right].
  destruct He' as [He' | He']; [left | right]; congruence.
Qed.

Lemma bind_same {A B : Type} (m : M A) (k : A -> M B) (st : t) :
  same_but_caches st (m st).2 ->
  (forall a st1, same_but_caches st1 (k a st1).2) ->
  same_but_caches st (bind m k st).2.
Proof.
  intros Hm Hk. unfold bind. specialize (Hk).
  destruct (m st) as [[a | e] st1]; [| done].
  eapply same_trans; [exact Hm | apply Hk].
Qed.

Lemma show_episodes_same (os : OS) (depth : nat) (sh : Show.t) :
  let sh' := (Show.episodes os depth sh).2 in
  Show.name sh' = Show.name sh /\ Show.path sh' = Show.path sh
  /\ Show.enabled sh' = Show.enabled sh
  /\ (Show.eplist sh' = Show.eplist sh \/ Show.eplist sh = []).
Proof.
  unfold Show.episodes. destruct (Show.eplist sh) as [|e es] eqn:E.
  - destruct (Show.episodes_for_path os depth (Show.path sh)); simpl; auto.
  - simpl. auto.
Qed.

Lemma update_same (o : loc) (sh sh' : Show.t) (st : t) :
  store st !! o = Some sh ->
  Show.name sh' = Show.name sh /\ Show.path sh' = Show.path sh
  /\ Show.enabled sh' = Show.enabled sh
  /\ (Show.eplist sh' = Show.eplist sh \/ Show.eplist sh = []) ->
  same_but_caches st
    {| shows := shows st; filters := filters st;
       store := <[o := sh']> (store st) |}.
Proof.
  intros Ho Hsh. split; [done |]. split; [done |]. intros o'. simpl.
  destruct (decide (o = o')) as [<- | Hne].
  - by rewrite lookup_insert_eq, Ho.
  - rewrite lookup_insert_ne by done.
    destruct (store st !! o'); [| done]. repeat split. by left.
Qed.

Lemma episodes_same (os : OS) (depth : nat) (o : loc) (st : t) :
  same_but_caches st (episodes os depth o st).2.
Proof.
  unfold episodes. destruct (store st !! o) as [sh |] eqn:Ho;
    [| apply same_refl].
  pose proof (show_episodes_same os depth sh) as Hsh.
  destruct (Show.episodes os depth sh) as [r sh']. simpl in *.
  by apply (update_same o sh sh').
Qed.

Lemma all_matching_episodes_same (os : OS) (depth : nat) (values : list loc)
  (acc : list string) (st : t) :
  same_but_caches st (all_matching_episodes os depth values acc st).2.
Proof.
  revert acc st. induction values as [|o values IH]; intros acc st.
  - apply same_refl.
  - cbn [all_matching_episodes]. destruct (is_enabled o st); [| apply IH].
    apply bind_same; [apply episodes_same | intros; apply IH].
Qed.

Lemma random_episodes_same (os : OS) (depth : nat) (rnd : nat -> nat)
  (count : Z) (st : t) :
  same_but_caches st (random_episodes os depth rnd count st).2.
Proof.
  unfold random_episodes.
  apply bind_same; [apply all_matching_episodes_same |].
  intros. apply same_refl.
Qed.

Lemma all_matching_episodes_disabled (os : OS) (depth : nat)
  (values : list loc) (acc : list string) (st : t) :
  Forall (fun o => is_enabled o st = false) values ->
  all_matching_episodes os depth values acc st = (Ok acc, st).
Proof.
  intros H. induction H as [|o values Ho _ IH]; [done |].
  cbn [all_matching_episodes]. by rewrite Ho.
Qed.

Lemma shuffle_nil {A : Type} (rnd : nat -> nat) : shuffle rnd (@nil A) = [].
Proof. reflexivity. Qed.

Lemma slice_to_nil {A : Type} (count : Z) : slice_to count (@nil A) = [].
Proof. unfold slice_to. destruct (count <? 0)%Z; apply take_nil. Qed.

Lemma slice_to_negative {A : Type} (count : Z) (x : list A) :
  (count < 0)%Z ->
  slice_to count x = take (Z.to_nat (Z.of_nat (length x) + count)) x.
Proof.
  intros H. unfold slice_to. by destruct (Z.ltb_spec count 0); [| lia].
Qed.

End CachesFacts.

(** X18.  When no Show of the shows dictionary is enabled, as in a
    registry that no filter has touched, [random_episodes] returns the
    empty list for every count, scans nothing and leaves the registry as
    it was. *)
Theorem nothing_enabled_nothing_sampled (os : OS) (depth : nat)
  (rnd : nat -> nat) (count : Z) (st : ShowList.t) :
  Forall (fun o => ShowList.is_enabled o st = false) (ShowList.shows st).*2 ->
  ShowList.random_episodes os depth rnd count st = (Ok [], st).
Proof.
  intros H. unfold ShowList.random_episodes, ShowList.bind.
  rewrite (CachesFacts.all_matching_episodes_disabled os depth _ [] st H).
  unfold ShowList.ret.
  by rewrite CachesFacts.shuffle_nil, CachesFacts.slice_to_nil.
Qed.

Lemma nothing_enabled_nothing_sampled_witness :
  ShowList.random_episodes ScanExamples.empty_os 0 (fun i => i) 5
    Examples.registry = (Ok [], Examples.registry).
Proof.
  apply (nothing_enabled_nothing_sampled ScanExamples.empty_os 0 (fun i => i)
           5 Examples.registry).
  repeat constructor.
Defined.

(** X19.  A negative count is not refused: it is taken as a bound from
    the end.  When the pool has been gathered, [random_episodes] with a
    count below zero returns a rearrangement of the pool without its last
    [-count] entries, that is, pool size + count entries, or none when
    that is negative. *)
Theorem negative_count_drops_from_the_end (os : OS) (depth : nat)
  (rnd : nat -> nat) (count : Z) (st st' : ShowList.t) (pool : list string) :
  (count < 0)%Z ->
  ShowList.all_matching_episodes os depth (ShowList.shows st).*2 [] st
  = (Ok pool, st') ->
  exists r : list string,
    ShowList.random_episodes os depth rnd count st = (Ok r, st')
    /\ length r = Z.to_nat (Z.of_nat (length pool) + count)
    /\ exists rest, r ++ rest ≡ₚ pool.
Proof.
  intros Hc Hpool. exists (slice_to count (shuffle rnd pool)). split.
  - unfold ShowList.random_episodes, ShowList.bind. by rewrite Hpool.
  - rewrite CachesFacts.slice_to_negative by done.
    pose proof (ShuffleFacts.shuffle_perm rnd pool) as Hp.
    rewrite (Permutation_length Hp).
    destruct (ShuffleFacts.take_of_perm
                (Z.to_nat (Z.of_nat (length pool) + count)) pool
                (shuffle rnd pool) Hp) as (Hlen & Hrest & _).
    split; [rewrite Hlen; lia | exact Hrest].
Qed.

Lemma negative_count_drops_from_the_end_witness :
  exists r : list string,
    ShowList.random_episodes PoolExamples.nested_os 0 (fun i => i + 1) (-2)
      PoolExamples.cached = (Ok r, PoolExamples.cached)
    /\ length r = Z.to_nat (Z.of_nat 5 + -2)
    /\ exists rest,
         r ++ rest ≡ₚ ["./A/1.avi"; "./A/2.avi"; "./A/3.avi";
                       "./A/4.avi"; "./A/5.avi"].
Proof.
  apply (negative_count_drops_from_the_end PoolExamples.nested_os 0
           (fun i => i + 1) (-2) PoolExamples.cached PoolExamples.cached
           ["./A/1.avi"; "./A/2.avi"; "./A/3.avi"; "./A/4.avi"; "./A/5.avi"]);
    [lia | reflexivity].
Defined.

(** X20.  [random_episodes] never changes the selection: whether it
    returns or raises, both dictionaries and the set of Show objects are
    as they were, and so are the name, the path and the enabled flag of
    every Show; an episode list is as it was or was empty before. *)
Theorem random_episodes_fills_caches_only (os : OS) (depth : nat)
  (rnd : nat -> nat) (count : Z) (st : ShowList.t) :
  Caches.same_but_caches st
    (ShowList.random_episodes os depth rnd count st).2.
Proof. apply CachesFacts.random_episodes_same. Qed.

(** ** The listing *)

Module ListingFacts.
Import ShowList Caches CachesFacts Listing.

Lemma name_in_colour_same (os : OS) (depth : nat) (o : loc) (st : t) :
  same_but_caches st (name_in_colour os depth o st).2.
Proof.
  unfold name_in_colour. destruct (store st !! o) as [sh |] eqn:Ho;
    [| apply same_refl].
  unfold show_name_in_colour.
  pose proof (show_episodes_same os depth sh) as Hsh.
  destruct (Show.episodes os depth sh) as [[eps | e] sh']; simpl in *;
    by apply (update_same o sh sh').
Qed.

Lemma map_each_same {A B : Type} (body : A -> M B) (l : list A) :
  (forall a st, same_but_caches st (body a st).2) ->
  forall st, same_but_caches st (map_each body l st).2.
Proof.
  intros Hbody. induction l as [|a l IH]; intros st; [apply same_refl |].
  cbn [map_each]. apply bind_same; [apply Hbody |].
  intros b st1. apply bind_same; [apply IH |]. intros. apply same_refl.
Qed.

Lemma shortcuts_loop_same (os : OS) (depth : nat) (keys : list string)
  (shorts groups : list string) (st : t) :
  same_but_caches st (shortcuts_loop os depth keys shorts groups st).2.
Proof.
  revert shorts groups st.
  induction keys as [|name keys IH]; intros shorts groups st;
    [apply same_refl |].
  cbn [shortcuts_loop].
  destruct (dict_get name (filters st)) as [[f | g] |]; [| apply IH ..].
  apply bind_same; [| intros; apply IH].
  apply map_each_same. intros. apply name_in_colour_same.
Qed.

Lemma shortcuts_same (os : OS) (depth : nat) (st : t) :
  same_but_caches st (shortcuts os depth st).2.
Proof.
  unfold shortcuts. apply bind_same; [apply shortcuts_loop_same |].
  intros. apply same_refl.
Qed.

Lemma shortcuts_loop_lists (os : OS) (depth : nat) (keys : list string)
  (shorts groups shorts' groups' : list string) (st st' : t) :
  shortcuts_loop os depth keys shorts groups st = (Ok (shorts', groups'), st')
  -> groups' = groups ++ List.filter (is_group_key (filters st)) keys
     /\ exists lines,
          shorts' = shorts ++ lines
          /\ Forall2 line_of (List.filter (is_filter_key (filters st)) keys)
               lines.
Proof.
  revert shorts groups st.
  induction keys as [|name keys IH]; intros shorts groups st.
  - intros [= <- <- <-]. rewrite !List.app_nil_r. split; [done |].
    exists []. by rewrite List.app_nil_r.
  - cbn [shortcuts_loop List.filter]. unfold is_group_key, is_filter_key.
    destruct (dict_get name (filters st)) as [[f | g] |] eqn:Eg.
    + unfold bind.
      pose proof (map_each_same (name_in_colour os depth) (Filter.shows f)
                    (name_in_colour_same os depth) st) as (_ & Hf & _).
      destruct (map_each (name_in_colour os depth) (Filter.shows f) st)
        as [[labels | e] st1]; [| done].
      simpl in Hf. intros Hloop.
      destruct (IH _ _ _ Hloop) as (Hg & lines & Hs & Hl).
      rewrite Hf in Hg, Hl. split; [done |].
      eexists (_ :: lines). rewrite Hs, <- List.app_assoc.
      split; [reflexivity |]. constructor; [| done].
      exists (join ", " labels). unfold rjust. by rewrite !app_assoc.
    + intros Hloop. destruct (IH _ _ _ Hloop) as (Hg & lines & Hs & Hl).
      split; [by rewrite Hg, <- List.app_assoc |]. by exists lines.
    + apply IH.
Qed.

End ListingFacts.

(** X21.  [shortcuts] only looks: whether it returns or raises, both
    dictionaries and the set of Show objects are as they were, and so are
    the name, the path and the enabled flag of every Show; an episode
    list is as it was or was empty before (the label of a Show counts its
    episodes, which scans its directory). *)
Theorem shortcuts_fills_caches_only (os : OS) (depth : nat)
  (st : ShowList.t) :
  Caches.same_but_caches st (Listing.shortcuts os depth st).2.
Proof. apply ListingFacts.shortcuts_same. Qed.

(** X22.  The text [shortcuts] returns: the word Groups right-justified
    to 23 bytes, the keys that hold a Group separated by spaces, an empty
    line, and one line for each key that holds a Filter, made of the key
    right-justified to twenty bytes (a longer key is not cut), a colon
    and the labels; the keys are taken in ascending byte order, and each
    key of the dictionary is taken once. *)
Theorem shortcuts_layout (os : OS) (depth : nat) (st st' : ShowList.t)
  (text : string) :
  Listing.shortcuts os depth st = (Ok text, st') ->
  let keys := Listing.sorted_keys (ShowList.filters st) in
  StronglySorted String.le keys
  /\ keys ≡ₚ (ShowList.filters st).*1
  /\ exists lines : list string,
       text = "              Groups : "
              +:+ join " "
                    (List.filter
                       (Listing.is_group_key (ShowList.filters st)) keys)
              +:+ String LF (String LF "") +:+ join (String LF "") lines
       /\ Forall2 Listing.line_of
            (List.filter (Listing.is_filter_key (ShowList.filters st)) keys)
            lines.
Proof.
  intros Hrun keys. split; [apply StronglySorted_merge_sort; apply _ |].
  split; [apply merge_sort_Permutation |].
  unfold Listing.shortcuts, ShowList.bind in Hrun.
  destruct (Listing.shortcuts_loop os depth
              (Listing.sorted_keys (ShowList.filters st)) [] [] st)
    as [[[shorts groups] | e] st1] eqn:Hloop; [| done].
  injection Hrun as <- <-.
  destruct (ListingFacts.shortcuts_loop_lists _ _ _ _ _ _ _ _ _ Hloop)
    as (-> & lines & -> & Hlines).
  exists lines. split; [reflexivity | exact Hlines].
Qed.

Lemma shortcuts_layout_witness :
  let keys := Listing.sorted_keys (ShowList.filters MoreExamples.listed) in
  StronglySorted String.le keys
  /\ keys ≡ₚ (ShowList.filters MoreExamples.listed).*1
  /\ exists lines : list string,
       MoreExamples.listed_text
       = "              Groups : "
         +:+ join " "
               (List.filter
                  (Listing.is_group_key (ShowList.filters MoreExamples.listed))
                  keys)
         +:+ String LF (String LF "") +:+ join (String LF "") lines
       /\ Forall2 Listing.line_of
            (List.filter
               (Listing.is_filter_key (ShowList.filters MoreExamples.listed))
               keys)
            lines.
Proof.
  apply (shortcuts_layout ScanExamples.empty_os 0 MoreExamples.listed
           MoreExamples.listed MoreExamples.listed_text).
  reflexivity.
Defined.

(** ** Registration *)

Module RegistryFacts.
Import ShowList Listing Registry.

Lemma has_key_spec {V : Type} (k : string) (d : list (string * V)) :
  has_key k d = true <-> k ∈ d.*1.
Proof.
  unfold has_key. rewrite existsb_exists, list_elem_of_fmap. split.
  - intros (kv & Hin%list_elem_of_In & ->%String.eqb_eq). by exists kv.
  - intros (kv & -> & Hin). exists kv.
    split; [by apply list_elem_of_In | apply String.eqb_refl].
Qed.

Lemma has_key_false {V : Type} (k : string) (d : list (string * V)) :
  has_key k d = false <-> k ∉ d.*1.
Proof.
  rewrite <- has_key_spec. by destruct (has_key k d).
Qed.

Lemma dict_set_elem {V : Type} (h : hash_order) (k : string) (v : V)
  (d : list (string * V)) (x : string * V) :
  x ∈ dict_set h k v d <-> x = (k, v) \/ (x.1 <> k /\ x ∈ d).
Proof.
  unfold dict_set. destruct (has_key k d) eqn:Hk.
  - rewrite list_elem_of_fmap. split.
    + intros (y & -> & Hy). destruct (String.eqb_spec k y.1) as [E | E];
        [by left | right; split; [congruence | done]].
    + intros [-> | [Hne Hx]].
      * apply has_key_spec, list_elem_of_fmap in Hk as (y & -> & Hy).
        exists y. by rewrite String.eqb_refl.
      * exists x. split; [| done].
        destruct (String.eqb_spec k x.1); [congruence | done].
  - rewrite (place_perm h V ((k, v) :: d)), elem_of_cons.
    apply has_key_false in Hk. split.
    + intros [-> | Hx]; [by left |]. right. split; [| done].
      intros E. apply Hk, list_elem_of_fmap. by exists x.
    + intros [-> | [_ Hx]]; auto.
Qed.

Lemma dict_set_NoDup {V : Type} (h : hash_order) (k : string) (v : V)
  (d : list (string * V)) :
  NoDup d.*1 -> NoDup (dict_set h k v d).*1.
Proof.
  intros Hnd. unfold dict_set. destruct (has_key k d) eqn:Hk.
  - assert ((map (fun kv : string * V =>
                if String.eqb k kv.1 then (k, v) else kv) d).*1 = d.*1) as ->;
      [| done].
    clear. induction d as [|[k' v'] d IH]; [done |].
    cbn [map]. rewrite !fmap_cons, IH. f_equal. simpl.
    by destruct (String.eqb_spec k k').
  - rewrite (place_perm h V ((k, v) :: d)). simpl.
    apply NoDup_cons. split; [by apply has_key_false | done].
Qed.

Lemma dict_get_elem {V : Type} (k : string) (v : V) (d : list (string * V)) :
  NoDup d.*1 -> dict_get k d = Some v <-> (k, v) ∈ d.
Proof.
  intros Hnd. induction d as [|[k' v'] d IH]; simpl.
  - split; [done | by intros ?%elem_of_nil].
  - simpl in Hnd. apply NoDup_cons in Hnd as [Hk' Hnd].
    rewrite elem_of_cons. destruct (String.eqb_spec k k') as [<- | Hne].
    + split; [intros [= ->]; by left |].
      intros [[= ->] | Hin]; [done |].
      exfalso. apply Hk', list_elem_of_fmap. by exists (k, v).
    + rewrite (IH Hnd). split; [auto |]. intros [[= ? ?] | ?]; [done | done].
Qed.

Lemma dict_get_set_eq {V : Type} (h : hash_order) (k : string) (v : V)
  (d : list (string * V)) :
  NoDup d.*1 -> dict_get k (dict_set h k v d) = Some v.
Proof.
  intros Hnd. apply dict_get_elem; [by apply dict_set_NoDup |].
  apply dict_set_elem. by left.
Qed.

Lemma dict_get_set_ne {V : Type} (h : hash_order) (k k' : string) (v : V)
  (d : list (string * V)) :
  NoDup d.*1 -> k' <> k -> dict_get k' (dict_set h k v d) = dict_get k' d.
Proof.
  intros Hnd Hne. apply option_eq. intros v'.
  rewrite !dict_get_elem by auto using dict_set_NoDup.
  rewrite dict_set_elem. split.
  - intros [[= ? ?] | [_ ?]]; [done | done].
  - intros Hin. right. done.
Qed.

Lemma filter_init_shows (k : string) (l : list loc) (f : Filter.t) :
  Filter.init k l = Some f -> Filter.shows f = l.
Proof.
  unfold Filter.init. destruct (Re.compile _); [| done]. by intros [= <-].
Qed.

Lemma add_filter_registered (h : hash_order) (k : string) (l : list loc)
  (f : Filter.t) (st : t) :
  NoDup (filters st).*1 -> Filter.init k l = Some f ->
  exists st',
    add_filter h (Some k) l st = (Registered, st')
    /\ shows st' = shows st /\ store st' = store st
    /\ NoDup (filters st').*1
    /\ dict_get k (filters st') = Some (AFilter f)
    /\ forall k', k' <> k -> dict_get k' (filters st') = dict_get k' (filters st).
Proof.
  intros Hnd Hf. unfold add_filter. rewrite Hf. eexists.
  split; [reflexivity |]. simpl. do 2 (split; [done |]).
  split; [by apply dict_set_NoDup |].
  split; [by apply dict_get_set_eq |].
  intros k' Hne. by apply dict_get_set_ne.
Qed.

Lemma add_filter_wf (h : hash_order) (key : option string) (l : list loc)
  (st : t) :
  well_formed st -> (forall o, o ∈ l -> is_Some (store st !! o)) ->
  well_formed (add_filter h key l st).2.
Proof.
  intros (Hs & Hf & Hso & Hfo) Hl. unfold add_filter.
  destruct key as [k |]; [| done].
  destruct (Filter.init k l) as [f |] eqn:Ef; [| done].
  simpl. split; [done |]. split; [by apply dict_set_NoDup |].
  split; [done |]. simpl.
  intros k' f' o [[= -> <-] | [_ Hin]]%dict_set_elem Ho.
  - apply Hl. by rewrite <- (filter_init_shows _ _ _ Ef).
  - by eapply Hfo.
Qed.

Lemma add_group_wf (h : hash_order) (k s : string) (st : t) :
  well_formed st -> well_formed (add_group h k s st).2.
Proof.
  intros (Hs & Hf & Hso & Hfo). unfold add_group.
  destruct (Group.init k s) as [g |]; [| done].
  simpl. split; [done |]. split; [by apply dict_set_NoDup |].
  split; [done |]. simpl.
  intros k' f' o [[= ] | [_ Hin]]%dict_set_elem Ho. by eapply Hfo.
Qed.

Lemma fresh_not_allocated (st : t) : store st !! fresh (dom (store st)) = None.
Proof. apply not_elem_of_dom, is_fresh. Qed.

Lemma add_show_wf (h1 h2 : hash_order) (name : string)
  (abbrev : option string) (base : string) (st : t) :
  well_formed st -> well_formed (add_show h1 h2 name abbrev base st).2.
Proof.
  intros (Hs & Hf & Hso & Hfo). unfold add_show. apply add_filter_wf.
  - split; [by apply dict_set_NoDup |]. split; [done |]. simpl. split.
    + intros n o [[= -> ->] | [_ Hin]]%dict_set_elem.
      * rewrite lookup_insert_eq. by eexists.
      * apply lookup_insert_is_Some'. right. by eapply Hso.
    + intros k f o Hin Ho. apply lookup_insert_is_Some'. right.
      by eapply Hfo.
  - intros o ->%list_elem_of_singleton. simpl.
    rewrite lookup_insert_eq. by eexists.
Qed.

Lemma same_but_enabled_wf (st st' : t) :
  same_but_enabled st st' -> well_formed st -> well_formed st'.
Proof.
  intros (Es & Ef & Ho) (Hs & Hf & Hso & Hfo). rewrite <- Es in Hs, Hso.
  rewrite <- Ef in Hf, Hfo. split; [done |]. split; [done |].
  assert (forall o, is_Some (store st !! o) -> is_Some (store st' !! o)) as Hi.
  { intros o [sh Hsh]. specialize (Ho o). rewrite Hsh in Ho.
    destruct (store st' !! o); [by eexists | done]. }
  split; [intros n o Hin; by eapply Hi, Hso |].
  intros k f o Hin Hof. by eapply Hi, Hfo.
Qed.

Lemma same_but_caches_wf (st st' : t) :
  Caches.same_but_caches st st' -> well_formed st -> well_formed st'.
Proof.
  intros (Es & Ef & Ho) (Hs & Hf & Hso & Hfo). rewrite <- Es in Hs, Hso.
  rewrite <- Ef in Hf, Hfo. split; [done |]. split; [done |].
  assert (forall o, is_Some (store st !! o) -> is_Some (store st' !! o)) as Hi.
  { intros o [sh Hsh]. specialize (Ho o). rewrite Hsh in Ho.
    destruct (store st' !! o); [by eexists | done]. }
  split; [intros n o Hin; by eapply Hi, Hso |].
  intros k f o Hin Hof. by eapply Hi, Hfo.
Qed.

Lemma run_first_match_only (recur : string -> M unit) (token : string)
  (enable : bool) (values : list entry) (e : entry) :
  (forall x, x ∈ values -> entry_match x token = true -> x = e) ->
  e ∈ values -> entry_match e token = true ->
  run_first_match recur token enable values = entry_run recur e enable.
Proof.
  intros Honly Hin He. induction values as [|x values IH];
    [by apply elem_of_nil in Hin |].
  simpl. destruct (entry_match x token) eqn:Ex.
  - by rewrite (Honly x) by (done || by left).
  - apply IH.
    + intros y Hy. apply Honly. by right.
    + apply elem_of_cons in Hin as [-> | Hin]; [congruence | done].
Qed.

End RegistryFacts.

(** X23.  A registration is silent about a key that is taken: after
    [add_filter] with a key that compiles, the key holds the new Filter,
    whatever it held before, every other key holds what it held, no key
    is held twice, and the shows dictionary and the Show objects are as
    they were. *)
Theorem add_filter_last_wins (h : Registry.hash_order) (k : string)
  (l : list loc) (f : Filter.t) (st : ShowList.t) :
  NoDup (ShowList.filters st).*1 ->
  Filter.init k l = Some f ->
  exists st' : ShowList.t,
    Registry.add_filter h (Some k) l st = (Registry.Registered, st')
    /\ ShowList.shows st' = ShowList.shows st
    /\ ShowList.store st' = ShowList.store st
    /\ NoDup (ShowList.filters st').*1
    /\ Listing.dict_get k (ShowList.filters st') = Some (AFilter f)
    /\ forall k' : string, k' <> k ->
         Listing.dict_get k' (ShowList.filters st')
         = Listing.dict_get k' (ShowList.filters st).
Proof. apply RegistryFacts.add_filter_registered. Qed.

Lemma add_filter_last_wins_witness :
  exists st' : ShowList.t,
    Registry.add_filter Registry.insertion_order (Some "fav") [1]
      Examples.registry = (Registry.Registered, st')
    /\ ShowList.shows st' = ShowList.shows Examples.registry
    /\ ShowList.store st' = ShowList.store Examples.registry
    /\ NoDup (ShowList.filters st').*1
    /\ Listing.dict_get "fav" (ShowList.filters st')
       = Some (AFilter {| Filter.regex := Re.filter_regex "fav";
                          Filter.shows := [1] |})
    /\ forall k' : string, k' <> "fav" ->
         Listing.dict_get k' (ShowList.filters st')
         = Listing.dict_get k' (ShowList.filters Examples.registry).
Proof.
  apply (add_filter_last_wins Registry.insertion_order "fav" [1]
           {| Filter.regex := Re.filter_regex "fav"; Filter.shows := [1] |}
           Examples.registry);
    [apply (bool_decide_unpack _); reflexivity | reflexivity].
Defined.

(** X24.  [add_group] likewise: after it, with a key that compiles, the
    key holds the new Group, also when it was the abbreviation of a Show
    before, every other key holds what it held, no key is held twice, and
    the shows dictionary and the Show objects are as they were. *)
Theorem add_group_last_wins (h : Registry.hash_order) (k s : string)
  (g : Group.t) (st : ShowList.t) :
  NoDup (ShowList.filters st).*1 ->
  Group.init k s = Some g ->
  exists st' : ShowList.t,
    Registry.add_group h k s st = (Registry.Registered, st')
    /\ ShowList.shows st' = ShowList.shows st
    /\ ShowList.store st' = ShowList.store st
    /\ NoDup (ShowList.filters st').*1
    /\ Listing.dict_get k (ShowList.filters st') = Some (AGroup g)
    /\ forall k' : string, k' <> k ->
         Listing.dict_get k' (ShowList.filters st')
         = Listing.dict_get k' (ShowList.filters st).
Proof.
  intros Hnd Hg. unfold Registry.add_group. rewrite Hg. eexists.
  split; [reflexivity |]. simpl. do 2 (split; [done |]).
  split; [by apply RegistryFacts.dict_set_NoDup |].
  split; [by apply RegistryFacts.dict_get_set_eq |].
  intros k' Hne. by apply RegistryFacts.dict_get_set_ne.
Qed.

Lemma add_group_last_wins_witness :
  exists st' : ShowList.t,
    Registry.add_group Registry.insertion_order "a" "-all b"
      Examples.registry = (Registry.Registered, st')
    /\ ShowList.shows st' = ShowList.shows Examples.registry
    /\ ShowList.store st' = ShowList.store Examples.registry
    /\ NoDup (ShowList.filters st').*1
    /\ Listing.dict_get "a" (ShowList.filters st')
       = Some (AGroup {| Group.regex := Re.lits Re.Eps "a";
                         Group.filter_string := "-all b" |})
    /\ forall k' : string, k' <> "a" ->
         Listing.dict_get k' (ShowList.filters st')
         = Listing.dict_get k' (ShowList.filters Examples.registry).
Proof.
  apply (add_group_last_wins Registry.insertion_order "a" "-all b"
           {| Group.regex := Re.lits Re.Eps "a";
              Group.filter_string := "-all b" |} Examples.registry);
    [apply (bool_decide_unpack _); reflexivity | reflexivity].
Defined.

(** X25.  [add_show] with an abbreviation that compiles makes a new Show
    object, disabled, without episodes and with the path made of the base
    path, a slash and the name; the name holds it in the shows
    dictionary, also when it held another Show before, and the
    abbreviation holds a Filter that refers to it alone; every other name
    and key holds what it held, and every other object is as it was. *)
Theorem add_show_registers (h1 h2 : Registry.hash_order) (name k base : string)
  (r : Re.regex) (st : ShowList.t) :
  NoDup (ShowList.shows st).*1 ->
  NoDup (ShowList.filters st).*1 ->
  Re.compile ("^-?" +:+ k) = Some r ->
  exists (o : loc) (st' : ShowList.t),
    Registry.add_show h1 h2 name (Some k) base st = (Registry.Registered, st')
    /\ ShowList.store st !! o = None
    /\ ShowList.store st'
       = <[o := {| Show.name := name; Show.eplist := [];
                   Show.path := base +:+ "/" +:+ name;
                   Show.enabled := false |}]> (ShowList.store st)
    /\ Listing.dict_get name (ShowList.shows st') = Some o
    /\ (forall n : string, n <> name ->
          Listing.dict_get n (ShowList.shows st')
          = Listing.dict_get n (ShowList.shows st))
    /\ Listing.dict_get k (ShowList.filters st')
       = Some (AFilter {| Filter.regex := r; Filter.shows := [o] |})
    /\ forall k' : string, k' <> k ->
         Listing.dict_get k' (ShowList.filters st')
         = Listing.dict_get k' (ShowList.filters st).
Proof.
  intros Hs Hf Hr. exists (fresh (dom (ShowList.store st))).
  unfold Registry.add_show, Registry.add_filter, Filter.init. rewrite Hr.
  eexists. split; [reflexivity |]. simpl.
  split; [apply RegistryFacts.fresh_not_allocated |]. split; [done |].
  split; [by apply RegistryFacts.dict_get_set_eq |].
  split; [intros n Hn; by apply RegistryFacts.dict_get_set_ne |].
  split; [by apply RegistryFacts.dict_get_set_eq |].
  intros k' Hk'. by apply RegistryFacts.dict_get_set_ne.
Qed.

Lemma add_show_registers_witness :
  exists (o : loc) (st' : ShowList.t),
    Registry.add_show Registry.insertion_order Registry.insertion_order
      "C" (Some "c") "." Examples.registry = (Registry.Registered, st')
    /\ ShowList.store Examples.registry !! o = None
    /\ ShowList.store st'
       = <[o := {| Show.name := "C"; Show.eplist := [];
                   Show.path := "." +:+ "/" +:+ "C";
                   Show.enabled := false |}]>
           (ShowList.store Examples.registry)
    /\ Listing.dict_get "C" (ShowList.shows st') = Some o
    /\ (forall n : string, n <> "C" ->
          Listing.dict_get n (ShowList.shows st')
          = Listing.dict_get n (ShowList.shows Examples.registry))
    /\ Listing.dict_get "c" (ShowList.filters st')
       = Some (AFilter {| Filter.regex := Re.filter_regex "c";
                          Filter.shows := [o] |})
    /\ forall k' : string, k' <> "c" ->
         Listing.dict_get k' (ShowList.filters st')
         = Listing.dict_get k' (ShowList.filters Examples.registry).
Proof.
  apply (add_show_registers Registry.insertion_order Registry.insertion_order
           "C" "c" "." (Re.filter_regex "c") Examples.registry);
    [apply (bool_decide_unpack _); reflexivity
    | apply (bool_decide_unpack _); reflexivity | reflexivity].
Defined.

(** X26.  [add_show] without an abbreviation raises TypeError, from the
    concatenation of the pattern prefix with [None], after the Show has
    been put in the shows dictionary: the Show is registered, no Filter
    refers to it, and the filters dictionary is as it was. *)
Theorem add_show_without_abbreviation (h1 h2 : Registry.hash_order)
  (name base : string) (st : ShowList.t) :
  NoDup (ShowList.shows st).*1 ->
  exists (o : loc) (st' : ShowList.t),
    Registry.add_show h1 h2 name None base st = (Registry.TypeError, st')
    /\ ShowList.filters st' = ShowList.filters st
    /\ Listing.dict_get name (ShowList.shows st') = Some o
    /\ ShowList.store st !! o = None
    /\ ShowList.store st' !! o = Some (Show.init name base).
Proof.
  intros Hs. exists (fresh (dom (ShowList.store st))). eexists.
  split; [reflexivity |]. simpl. split; [done |].
  split; [by apply RegistryFacts.dict_get_set_eq |].
  split; [apply RegistryFacts.fresh_not_allocated |].
  apply lookup_insert_eq.
Qed.

Lemma add_show_without_abbreviation_witness :
  exists (o : loc) (st' : ShowList.t),
    Registry.add_show Registry.insertion_order Registry.insertion_order
      "C" None "." Examples.registry = (Registry.TypeError, st')
    /\ ShowList.filters st' = ShowList.filters Examples.registry
    /\ Listing.dict_get "C" (ShowList.shows st') = Some o
    /\ ShowList.store Examples.registry !! o = None
    /\ ShowList.store st' !! o = Some (Show.init "C" ".").
Proof.
  apply (add_show_without_abbreviation Registry.insertion_order
           Registry.insertion_order "C" "." Examples.registry).
  apply (bool_decide_unpack _). reflexivity.
Defined.

(** X27.  The invariant of the registry: the empty registry has no key
    twice and no identity without an object, and [add_show], [add_group],
    [add_filter] with Shows of the store, [filter], [random_episodes] and
    [shortcuts] keep it so, whether they return or raise. *)
Theorem registry_stays_well_formed :
  Registry.well_formed Registry.init
  /\ (forall h1 h2 name abbrev base st,
        Registry.well_formed st ->
        Registry.well_formed (Registry.add_show h1 h2 name abbrev base st).2)
  /\ (forall h k s st,
        Registry.well_formed st ->
        Registry.well_formed (Registry.add_group h k s st).2)
  /\ (forall h key l st,
        Registry.well_formed st ->
        (forall o, o ∈ l -> is_Some (ShowList.store st !! o)) ->
        Registry.well_formed (Registry.add_filter h key l st).2)
  /\ (forall depth s st,
        Registry.well_formed st ->
        Registry.well_formed (ShowList.filter depth s st).2)
  /\ (forall os depth rnd count st,
        Registry.well_formed st ->
        Registry.well_formed (ShowList.random_episodes os depth rnd count st).2)
  /\ (forall os depth st,
        Registry.well_formed st ->
        Registry.well_formed (Listing.shortcuts os depth st).2).
Proof.
  split.
  { split; [constructor |]. split; [constructor |].
    split; [intros n o Hin | intros k f o Hin]; by apply elem_of_nil in Hin. }
  split; [intros; by apply RegistryFacts.add_show_wf |].
  split; [intros; by apply RegistryFacts.add_group_wf |].
  split; [intros; by apply RegistryFacts.add_filter_wf |].
  split.
  { intros depth s st. apply RegistryFacts.same_but_enabled_wf,
      ShowListFacts.filter_same. }
  split.
  { intros os depth rnd count st. apply RegistryFacts.same_but_caches_wf,
      CachesFacts.random_episodes_same. }
  intros os depth st. apply RegistryFacts.same_but_caches_wf,
    ListingFacts.shortcuts_same.
Qed.

(** X28.  Registering and selecting: after [add_show] with an
    abbreviation [k] without pattern syntax, the one-token filter-string
    [k] returns and gives the new Show the polarity of [k], provided that
    [k] is not taken by the "all" pattern and no value under another key
    matches it; every object that was there before is as it was.  The
    order in which the dictionaries iterate plays no part. *)
Theorem added_show_is_selected_by_its_key (h1 h2 : Registry.hash_order)
  (name k base : string) (depth : nat) (st : ShowList.t) :
  NoDup (ShowList.shows st).*1 ->
  Re.all_literal k = true ->
  mem_char " " k = false ->
  Re.match_ ShowList.all_pseudo_filter k = false ->
  Forall (fun kv => kv.1 <> k -> entry_match kv.2 k = false)
         (ShowList.filters st) ->
  exists (o : loc) (st1 st2 : ShowList.t),
    Registry.add_show h1 h2 name (Some k) base st = (Registry.Registered, st1)
    /\ ShowList.filter depth k st1 = (Ok tt, st2)
    /\ Listing.dict_get name (ShowList.shows st2) = Some o
    /\ ShowList.store st2 !! o
       = Some (Show.with_enabled (is_enabled_filter k) (Show.init name base))
    /\ forall o' : loc, o' <> o ->
         ShowList.store st2 !! o' = ShowList.store st !! o'.
Proof.
  intros Hs Hk Hsp Hall Hothers.
  set (o := fresh (dom (ShowList.store st))). exists o.
  unfold Registry.add_show, Registry.add_filter, Filter.init.
  rewrite (ReFacts.compile_filter_literal k Hk). fold o.
  set (f := {| Filter.regex := Re.filter_regex k; Filter.shows := [o] |}).
  set (st1 := {| ShowList.shows := _; ShowList.filters := _;
                 ShowList.store := _ |}).
  exists st1.
  assert (Filter.match_ f k = true) as Hm.
  { apply ReFacts.match_filter_regex. left. exists "". by rewrite app_nil_r. }
  assert (ShowList.filter depth k st1
          = ShowList.for_each (ShowList.set_enabled (is_enabled_filter k)) [o]
              st1) as Hrun.
  { rewrite ShowListFacts.filter_one_token by done.
    unfold ShowList.filter_token. rewrite Hall.
    rewrite (RegistryFacts.run_first_match_only _ k _ _ (AFilter f));
      [done | | | done].
    - intros x (kv & -> & Hin)%list_elem_of_fmap Hx.
      apply RegistryFacts.dict_set_elem in Hin as [-> | [Hne Hin]]; [done |].
      rewrite Forall_forall in Hothers.
      by rewrite (Hothers kv Hin Hne) in Hx.
    - apply list_elem_of_fmap. exists (k, AFilter f). split; [done |].
      apply RegistryFacts.dict_set_elem. by left. }
  destruct (ShowListFacts.for_each_set_enabled (is_enabled_filter k) [o] st1)
    as (st2 & Hst2 & Hshows & _ & Hl).
  exists st2. split; [done |]. split; [by rewrite Hrun |].
  split; [rewrite Hshows; by apply RegistryFacts.dict_get_set_eq |].
  split.
  - rewrite Hl, bool_decide_eq_true_2 by (by apply list_elem_of_singleton).
    subst st1. simpl. by rewrite lookup_insert_eq.
  - intros o' Hne. rewrite Hl, bool_decide_eq_false_2
      by (by rewrite list_elem_of_singleton).
    subst st1. simpl. by rewrite lookup_insert_ne.
Qed.

Lemma added_show_is_selected_by_its_key_witness :
  exists (o : loc) (st1 st2 : ShowList.t),
    Registry.add_show Registry.insertion_order Registry.insertion_order
      "C" (Some "c") "." Examples.registry = (Registry.Registered, st1)
    /\ ShowList.filter 0 "c" st1 = (Ok tt, st2)
    /\ Listing.dict_get "C" (ShowList.shows st2) = Some o
    /\ ShowList.store st2 !! o
       = Some (Show.with_enabled (is_enabled_filter "c") (Show.init "C" "."))
    /\ forall o' : loc, o' <> o ->
         ShowList.store st2 !! o' = ShowList.store Examples.registry !! o'.
Proof.
  apply (added_show_is_selected_by_its_key Registry.insertion_order
           Registry.insertion_order "C" "c" "." 0 Examples.registry);
    [apply (bool_decide_unpack _); reflexivity | reflexivity | reflexivity
    | reflexivity | repeat constructor; intros _; reflexivity].
Defined.
